(** * The event bus of include/core/EventBus.hpp

    A shallow embedding of the classes [Subscription] and [EventBus] and of
    the client code that drives them.

    - A [size_t] is an integer in [0, 2^64) and [nextId++] wraps around.
    - The [unordered_map] from [type_index] to [vector] of wrappers is a
      [gmap] from type indices to lists of wrappers.
    - A [shared_ptr<IEventWrapper>] points to a wrapper that is never written
      after [subscribe] has built it, so a copy of the pointer is modelled
      by a copy of the wrapper.
    - A [weak_ptr<EventBus>] is an optional reference into the heap of the
      buses that are still owned by some [shared_ptr]; [lock()] is a lookup.
    - A callback is client code: it may throw, and it may call back into
      the bus and into the tokens of the client while [publish] runs it.
    - Destroying a wrapper runs no client code: the [std::function] owns
      nothing whose destructor calls back into the bus.
    - The [shared_mutex] is not modelled: the operations are atomic steps of
      a single thread of control, reentrancy included. What another thread
      does to the registry while [publish] is between two callbacks has the
      same place in a run as what a callback does. *)

From stdpp Require Import gmap list fin_maps.
From Stdlib Require Import ZArith Lia Sorted.

Open Scope Z_scope.

(** ** Data *)

(** [std::type_index]; [typeid_void] is [std::type_index(typeid(void))]. *)
Definition type_index := nat.
Definition typeid_void : type_index := 0%nat.

(** [EventBus::HandlerId = size_t]. *)
Definition HandlerId := Z.
Definition SIZE_BITS : Z := 64.
Definition SIZE_MOD : Z := 2 ^ SIZE_BITS.

(** Addresses: of a bus owned by a [shared_ptr], of a token variable. *)
Definition BusRef := nat.
Definition Slot := nat.

(** The payload of an event. The bus only hands it on. *)
Definition Value := Z.

(** Client code. A callback [std::function<void(const T &)>] receives the
    event and then performs a sequence of actions. *)
#[warnings="-register-all"]
Inductive Action : Type :=
| ActSubscribe (bus : BusRef) (T : type_index)
               (callback : Value -> list Action) (dst : Slot)
    (* tokens[dst] = bus->subscribe<T>(callback) *)
| ActPublish (bus : BusRef) (T : type_index) (event : Value)
    (* bus->publish<T>(event) *)
| ActRelease (s : Slot)
    (* tokens[s].unsubscribe() *)
| ActDestroy (s : Slot)
    (* the token variable s goes out of scope *)
| ActMove (dst src : Slot)
    (* tokens[dst] = std::move(tokens[src]) *)
| ActDestroyBus (bus : BusRef)
    (* the last shared_ptr to the bus is dropped *)
| ActThrow.
    (* throw *)

Definition Callback := Value -> list Action.

(** [IEventWrapper] with its [EventWrapper<T>] part. *)
Record EventWrapper := mkWrapper {
  id : HandlerId;
  callback : Callback
}.

Record EventBus := mkBus {
  subscribers : gmap type_index (list EventWrapper);
  nextId : HandlerId
}.

Record Subscription := mkSubscription {
  weakBus : option BusRef;
  eventType : type_index;
  handlerId : HandlerId
}.

Record World := mkWorld {
  heap : gmap BusRef EventBus;
  tokens : gmap Slot Subscription
}.

(** How a call ends. *)
Inductive Outcome := Returned | Threw | OutOfFuel.

(** One call [wrapper->call(event)] made by [publish]. *)
Record Invocation := mkInvocation {
  wrapper : EventWrapper;
  argument : Value
}.

Record PublishResult := mkPublishResult {
  outcome : Outcome;
  world : World;
  invocations : list Invocation
}.

(** ** EventBus *)

(** A bus as its constructor leaves it. *)
Definition new_bus : EventBus := {| subscribers := ∅; nextId := 1 |}.

(** The vector [subscribers[typeIdx]] would have. *)
Definition bucket (b : EventBus) (T : type_index) : list EventWrapper :=
  default [] (subscribers b !! T).

(** [EventBus::subscribe<T>]: the new state of the bus and the handler id
    that goes into the token. *)
Definition EventBus_subscribe (T : type_index) (cb : Callback) (b : EventBus)
  : EventBus * HandlerId :=
  let typeIdx := T in
  let hid := nextId b in
  let nextId' := (nextId b + 1) mod SIZE_MOD in
  let wrp := {| id := hid; callback := cb |} in
  ({| subscribers := <[typeIdx := bucket b typeIdx ++ [wrp]]> (subscribers b);
      nextId := nextId' |}, hid).

(** [EventBus::unsubscribe]. *)
Definition EventBus_unsubscribe (type : type_index) (hid : HandlerId)
  (b : EventBus) : EventBus :=
  match subscribers b !! type with
  | Some lst =>
      let lst' := filter (λ w, id w ≠ hid) lst in
      match lst' with
      | [] => {| subscribers := delete type (subscribers b); nextId := nextId b |}
      | _ :: _ => {| subscribers := <[type := lst']> (subscribers b);
                     nextId := nextId b |}
      end
  | None => b
  end.

(** ** Subscription *)

(** [Subscription() = default]. *)
Definition Subscription_default : Subscription :=
  {| weakBus := None; eventType := typeid_void; handlerId := 0 |}.

(** The two states of a token, told apart the way [unsubscribe] does it. *)
Definition Released (s : Subscription) : Prop := handlerId s = 0.
Definition Active (s : Subscription) : Prop := handlerId s ≠ 0.

(** [weakBus.lock()]. *)
Definition lock (h : gmap BusRef EventBus) (wp : option BusRef)
  : option (BusRef * EventBus) :=
  match wp with
  | Some r => match h !! r with Some b => Some (r, b) | None => None end
  | None => None
  end.

(** [Subscription::unsubscribe]. *)
Definition Subscription_unsubscribe (h : gmap BusRef EventBus) (s : Subscription)
  : gmap BusRef EventBus * Subscription :=
  if handlerId s =? 0 then (h, s)
  else
    let h' := match lock h (weakBus s) with
              | Some (r, b) =>
                  <[r := EventBus_unsubscribe (eventType s) (handlerId s) b]> h
              | None => h
              end in
    (h', {| weakBus := None; eventType := eventType s; handlerId := 0 |}).

(** [~Subscription]. *)
Definition Subscription_destroy (h : gmap BusRef EventBus) (s : Subscription)
  : gmap BusRef EventBus :=
  (Subscription_unsubscribe h s).1.

(** [Subscription::moveFrom]: the new [*this] and the new [other]. *)
Definition Subscription_moveFrom (this other : Subscription)
  : Subscription * Subscription :=
  (* weakBus = std::move(other.weakBus): the moved-from weak_ptr is empty *)
  let this1 := {| weakBus := weakBus other; eventType := eventType this;
                  handlerId := handlerId this |} in
  let other1 := {| weakBus := None; eventType := eventType other;
                   handlerId := handlerId other |} in
  (* eventType = other.eventType *)
  let this2 := {| weakBus := weakBus this1; eventType := eventType other1;
                  handlerId := handlerId this1 |} in
  (* handlerId = other.handlerId *)
  let this3 := {| weakBus := weakBus this2; eventType := eventType this2;
                  handlerId := handlerId other1 |} in
  (* other.handlerId = 0 *)
  let other2 := {| weakBus := weakBus other1; eventType := eventType other1;
                   handlerId := 0 |} in
  (* other.weakBus.reset() *)
  let other3 := {| weakBus := None; eventType := eventType other2;
                   handlerId := handlerId other2 |} in
  (this3, other3).

(** The move constructor. *)
Definition Subscription_move_construct (other : Subscription)
  : Subscription * Subscription :=
  Subscription_moveFrom Subscription_default other.

(** The body of the move assignment, for [this != &other]. *)
Definition Subscription_move_assign (h : gmap BusRef EventBus)
  (this other : Subscription)
  : gmap BusRef EventBus * Subscription * Subscription :=
  let '(h', this') := Subscription_unsubscribe h this in
  let '(this'', other') := Subscription_moveFrom this' other in
  (h', this'', other').

(** ** The client: token variables and the calls it makes *)

(** [tokens[dst] = std::move(tokens[src])], or the move construction of a
    new variable [dst] when there is none yet. The test [this != &other]
    compares the addresses of the two variables. *)
Definition move_token (dst src : Slot) (w : World) : World :=
  match tokens w !! src with
  | None => w
  | Some other =>
      match tokens w !! dst with
      | None =>
          let '(this', other') := Subscription_move_construct other in
          {| heap := heap w;
             tokens := <[dst := this']> (<[src := other']> (tokens w)) |}
      | Some this =>
          if decide (dst = src) then w
          else
            let '(h', this', other') :=
              Subscription_move_assign (heap w) this other in
            {| heap := h';
               tokens := <[dst := this']> (<[src := other']> (tokens w)) |}
      end
  end.

(** [tokens[s].unsubscribe()]. *)
Definition release_token (s : Slot) (w : World) : World :=
  match tokens w !! s with
  | None => w
  | Some tok =>
      let '(h', tok') := Subscription_unsubscribe (heap w) tok in
      {| heap := h'; tokens := <[s := tok']> (tokens w) |}
  end.

(** The variable [tokens[s]] goes out of scope. *)
Definition destroy_token (s : Slot) (w : World) : World :=
  match tokens w !! s with
  | None => w
  | Some tok =>
      {| heap := Subscription_destroy (heap w) tok;
         tokens := delete s (tokens w) |}
  end.

(** [tokens[dst] = bus->subscribe<T>(cb)]: the call, then the move of the
    returned temporary into the variable, then the end of the temporary.
    A client without a [shared_ptr] to the bus cannot make the call. *)
Definition subscribe_token (r : BusRef) (T : type_index) (cb : Callback)
  (dst : Slot) (w : World) : World :=
  match heap w !! r with
  | None => w
  | Some b =>
      let '(b', hid) := EventBus_subscribe T cb b in
      let h1 := <[r := b']> (heap w) in
      (* Subscription(weak_from_this(), typeIdx, id) *)
      let tmp := {| weakBus := Some r; eventType := T; handlerId := hid |} in
      match tokens w !! dst with
      | None =>
          (* a new variable, initialised with the returned token *)
          {| heap := h1; tokens := <[dst := tmp]> (tokens w) |}
      | Some this =>
          let '(h2, this', tmp') := Subscription_move_assign h1 this tmp in
          {| heap := Subscription_destroy h2 tmp';
             tokens := <[dst := this']> (tokens w) |}
      end
  end.

Section Publish.

(** How the callbacks behave: [call cb event w] runs [cb(event)] in the
    world [w]. *)
Variable call : Callback -> Value -> World -> Outcome * World.

(** The loop of [publish] over [listenersSnapshot]. An exception leaves
    the loop and the function. *)
Fixpoint deliver (event : Value) (listenersSnapshot : list EventWrapper)
  (w : World) : PublishResult :=
  match listenersSnapshot with
  | [] => {| outcome := Returned; world := w; invocations := [] |}
  | wrp :: rest =>
      let here := {| wrapper := wrp; argument := event |} in
      match call (callback wrp) event w with
      | (Returned, w') =>
          let res := deliver event rest w' in
          {| outcome := outcome res; world := world res;
             invocations := here :: invocations res |}
      | (o, w') => {| outcome := o; world := w'; invocations := [here] |}
      end
  end.

(** [EventBus::publish<T>] on the bus whose state is [b], called in the
    world [w]. *)
Definition EventBus_publish (b : EventBus) (T : type_index) (event : Value)
  (w : World) : PublishResult :=
  match subscribers b !! T with
  | None => {| outcome := Returned; world := w; invocations := [] |}
  | Some [] => {| outcome := Returned; world := w; invocations := [] |}
  | Some listenersSnapshot => deliver event listenersSnapshot w
  end.

(** [bus->publish<T>(event)] through the client's pointer [r]. *)
Definition publish_at (r : BusRef) (T : type_index) (event : Value)
  (w : World) : PublishResult :=
  match heap w !! r with
  | None => {| outcome := Returned; world := w; invocations := [] |}
  | Some b => EventBus_publish b T event w
  end.

Definition exec_action (a : Action) (w : World) : Outcome * World :=
  match a with
  | ActSubscribe r T cb dst => (Returned, subscribe_token r T cb dst w)
  | ActPublish r T event =>
      let res := publish_at r T event w in (outcome res, world res)
  | ActRelease s => (Returned, release_token s w)
  | ActDestroy s => (Returned, destroy_token s w)
  | ActMove dst src => (Returned, move_token dst src w)
  | ActDestroyBus r =>
      (Returned, {| heap := delete r (heap w); tokens := tokens w |})
  | ActThrow => (Threw, w)
  end.

Fixpoint exec_actions (acts : list Action) (w : World) : Outcome * World :=
  match acts with
  | [] => (Returned, w)
  | a :: rest =>
      match exec_action a w with
      | (Returned, w') => exec_actions rest w'
      | (o, w') => (o, w')
      end
  end.

End Publish.

(** A callback runs its body; a call inside it runs with one unit of fuel
    less. *)
Fixpoint run_callback (fuel : nat) (cb : Callback) (event : Value) (w : World)
  : Outcome * World :=
  match fuel with
  | O => (OutOfFuel, w)
  | S fuel' => exec_actions (run_callback fuel') (cb event) w
  end.

(** A client program, from the top level. *)
Definition run_program (fuel : nat) (prog : list Action) (w : World)
  : Outcome * World :=
  exec_actions (run_callback fuel) prog w.

(** ** Sequences of calls on one bus *)

Inductive BusOp :=
| OpSubscribe (T : type_index) (cb : Callback)
| OpUnsubscribe (T : type_index) (hid : HandlerId).

(** The state after the calls and the handler ids that the [subscribe]
    calls returned, in order. *)
Fixpoint run_ops (ops : list BusOp) (b : EventBus) : EventBus * list HandlerId :=
  match ops with
  | [] => (b, [])
  | OpSubscribe T cb :: rest =>
      let '(b1, hid) := EventBus_subscribe T cb b in
      let '(b2, hids) := run_ops rest b1 in
      (b2, hid :: hids)
  | OpUnsubscribe T hid :: rest => run_ops rest (EventBus_unsubscribe T hid b)
  end.

(** [n] rounds of a subscribe followed by the unsubscribe of the id it is
    given, as a token that is taken and released again does it, on a bus
    whose counter stands at [k]. *)
Fixpoint churn (T : type_index) (cb : Callback) (k : HandlerId) (n : nat)
  : list BusOp :=
  match n with
  | O => []
  | S n' =>
      OpSubscribe T cb :: OpUnsubscribe T k ::
      churn T cb ((k + 1) mod SIZE_MOD) n'
  end.

Definition is_subscribe (op : BusOp) : bool :=
  match op with OpSubscribe _ _ => true | OpUnsubscribe _ _ => false end.

(** The number of [subscribe] calls in a sequence. *)
Definition subscribe_count (ops : list BusOp) : nat :=
  length (List.filter is_subscribe ops).

Definition nextId_in_range (b : EventBus) : Prop := 0 ≤ nextId b < SIZE_MOD.

(** ** Invariants *)

(** I3 of the data model. *)
Definition no_empty_bucket (b : EventBus) : Prop :=
  ∀ T lst, subscribers b !! T = Some lst → lst ≠ [].

Definition heap_ok (h : gmap BusRef EventBus) : Prop :=
  ∀ r b, h !! r = Some b → no_empty_bucket b.

Definition world_ok (w : World) : Prop := heap_ok (heap w).

(** The calls [publish] makes when no callback fails. *)
Definition invoke_all (event : Value) (lst : list EventWrapper) : list Invocation :=
  map (λ wrp, {| wrapper := wrp; argument := event |}) lst.

(** How often the wrapper with handler id [hid] is called. *)
Definition times_invoked (hid : HandlerId) (calls : list Invocation) : nat :=
  length (filter (λ x, id (wrapper x) = hid) calls).

(** ** Sample clients *)

Definition quiet : Callback := λ _, [].
Definition throwing : Callback := λ _, [ActThrow].

(** One bus at address 0, no token variable yet. *)
Definition sample_world : World :=
  {| heap := {[ 0%nat := new_bus ]}; tokens := ∅ |}.

(** A listener that subscribes a second listener for the same type when
    it is called. *)
Definition resubscribing : Callback :=
  λ _, [ActSubscribe 0%nat 7%nat quiet 2%nat].

Definition reentrant_world : World :=
  (run_program 1 [ActSubscribe 0%nat 7%nat resubscribing 1%nat] sample_world).2.

(** A listener that publishes the event it is given again, for the type
    it listens to. *)
Definition republishing (r : BusRef) (T : type_index) : Callback :=
  λ event, [ActPublish r T event].

(** A listener that publishes an event of another type. *)
Definition publishing_other : Callback :=
  λ _, [ActPublish 0%nat 8%nat 0].

(** A listener that releases its own token and subscribes a successor. *)
Definition self_replacing : Callback :=
  λ _, [ActRelease 1%nat; ActSubscribe 0%nat 7%nat quiet 2%nat].

(** ** Owners of tokens *)

(** The destructor of a [std::vector<Subscription>], the member [tokens] of
    [UIElement] and the member [subscriptions] of [EventLogger]: every
    element is destroyed. The two classes declare their [shared_ptr] to the
    bus ahead of the vector, so the vector goes first. *)
Fixpoint destroy_tokens (slots : list Slot) (w : World) : World :=
  match slots with
  | [] => w
  | s :: rest => destroy_tokens rest (destroy_token s w)
  end.

(** ** UIElement and UIManager *)

(** Of a [UIElement] the member functions below read and write the flag
    [visible] only; its position, size, bus pointer and tokens are left
    out. The constructor sets the flag. *)
Record UIElement := mkUIElement { visible : bool }.

Definition UIElement_new : UIElement := {| visible := true |}.

Definition isActive (e : UIElement) : bool := visible e.

Definition setActive (active : bool) (e : UIElement) : UIElement :=
  {| visible := active |}.

(** The elements live behind [shared_ptr]s: a store of elements by
    address, and the manager's vector of addresses. *)
Definition ElemRef := nat.

Record UIManager := mkUIManager { elements : list ElemRef }.

Definition UIManager_add (el : ElemRef) (m : UIManager) : UIManager :=
  {| elements := elements m ++ [el] |}.

Section UIManagerLoops.

(** The time step, a [double] that is only handed on. *)
Variable Dt : Type.

(** The pure virtual [update] and [draw] of the element at an address:
    what they do to the elements. *)
Variable update_impl : ElemRef → Dt → gmap ElemRef UIElement → gmap ElemRef UIElement.
Variable draw_impl : ElemRef → gmap ElemRef UIElement → gmap ElemRef UIElement.

(** [UIManager::update]: the elements after the loop and the addresses
    whose [update] was called, in order. *)
Fixpoint update_loop (dt : Dt) (els : list ElemRef) (st : gmap ElemRef UIElement)
  : gmap ElemRef UIElement * list ElemRef :=
  match els with
  | [] => (st, [])
  | e :: rest =>
      match st !! e with
      | Some el =>
          if isActive el
          then let '(st', called) := update_loop dt rest (update_impl e dt st) in
               (st', e :: called)
          else update_loop dt rest st
      | None => update_loop dt rest st
      end
  end.

Definition UIManager_update (dt : Dt) (m : UIManager) (st : gmap ElemRef UIElement)
  : gmap ElemRef UIElement * list ElemRef :=
  update_loop dt (elements m) st.

(** [UIManager::draw]. *)
Fixpoint draw_loop (els : list ElemRef) (st : gmap ElemRef UIElement)
  : gmap ElemRef UIElement * list ElemRef :=
  match els with
  | [] => (st, [])
  | e :: rest =>
      match st !! e with
      | Some el =>
          if isActive el
          then let '(st', called) := draw_loop rest (draw_impl e st) in
               (st', e :: called)
          else draw_loop rest st
      | None => draw_loop rest st
      end
  end.

Definition UIManager_draw (m : UIManager) (st : gmap ElemRef UIElement)
  : gmap ElemRef UIElement * list ElemRef :=
  draw_loop (elements m) st.

End UIManagerLoops.

(** The element at [e] is there and active. *)
Definition active_in (st : gmap ElemRef UIElement) (e : ElemRef) : Prop :=
  isActive <$> st !! e = Some true.

#[global] Instance active_in_dec st e : Decision (active_in st e).
Proof. unfold active_in. apply _. Defined.

(** ** More invariants *)

(** An action that neither throws nor publishes. *)
Definition registry_action (a : Action) : bool :=
  match a with
  | ActThrow | ActPublish _ _ _ => false
  | _ => true
  end.

(** No handler id occurs twice in the registry of a bus. *)
Definition registry_ids_unique (b : EventBus) : Prop :=
  (∀ T, NoDup (map id (bucket b T))) ∧
  (∀ T1 T2 w1 w2,
     w1 ∈ bucket b T1 → w2 ∈ bucket b T2 → id w1 = id w2 → T1 = T2).

(** The handler ids of the registry are unique and lie in [1, g). *)
Definition ids_below (g : Z) (b : EventBus) : Prop :=
  (∀ T wrp, wrp ∈ bucket b T → 1 ≤ id wrp < g) ∧ registry_ids_unique b.

(** Every wrapper with a handler id other than 0 belongs to a token that
    [P] holds of. *)
Definition owned_by (P : Subscription → Prop) (h : gmap BusRef EventBus) : Prop :=
  ∀ r b T wrp,
    h !! r = Some b → wrp ∈ bucket b T → id wrp ≠ 0 →
    P {| weakBus := Some r; eventType := T; handlerId := id wrp |}.

(** Every such wrapper belongs to a token variable of the client. *)
Definition owned (w : World) : Prop :=
  owned_by (λ t, ∃ s, tokens w !! s = Some t) (heap w).

(** The bus at [r], if alive, has no wrapper with the id [hid] for [T]. *)
Definition no_wrapper (r : BusRef) (T : type_index) (hid : HandlerId)
  (h : gmap BusRef EventBus) : Prop :=
  ∀ b wrp, h !! r = Some b → wrp ∈ bucket b T → id wrp ≠ hid.

(** What [unsubscribe] leaves of a bucket: an empty one is erased. *)
Definition prune (lst : list EventWrapper) : option (list EventWrapper) :=
  match lst with [] => None | _ :: _ => Some lst end.

(** ** The registry under subscribe and unsubscribe *)

Lemma filter_all {A} (P : A → Prop) `{!∀ x, Decision (P x)} (l : list A) :
  (∀ x, x ∈ l → P x) → filter P l = l.
Proof.
  induction l as [|a l IH]; intros Hall; [done|].
  rewrite filter_cons_True by (apply Hall; left).
  f_equal. apply IH. intros x Hx. apply Hall. by right.
Qed.

Lemma filter_none {A} (P : A → Prop) `{!∀ x, Decision (P x)} (l : list A) :
  (∀ x, x ∈ l → ¬ P x) → filter P l = [].
Proof.
  induction l as [|a l IH]; intros Hnone; [done|].
  rewrite filter_cons_False by (apply Hnone; left).
  apply IH. intros x Hx. apply Hnone. by right.
Qed.

Lemma bus_eta (b : EventBus) :
  {| subscribers := subscribers b; nextId := nextId b |} = b.
Proof. by destruct b. Qed.

Lemma bucket_subscribe T cb b T' :
  bucket (EventBus_subscribe T cb b).1 T' =
  if decide (T' = T)
  then bucket b T ++ [{| id := nextId b; callback := cb |}]
  else bucket b T'.
Proof.
  unfold bucket at 1. simpl. case_decide as E.
  - subst. by rewrite lookup_insert_eq.
  - by rewrite lookup_insert_ne.
Qed.

Lemma bucket_unsubscribe T hid b T' :
  bucket (EventBus_unsubscribe T hid b) T' =
  if decide (T' = T)
  then filter (λ w, id w ≠ hid) (bucket b T)
  else bucket b T'.
Proof.
  unfold EventBus_unsubscribe, bucket.
  destruct (subscribers b !! T) as [lst|] eqn:E; simpl.
  - destruct (filter _ lst) as [|x l'] eqn:F; simpl; case_decide as D; subst.
    + by rewrite lookup_delete_eq.
    + by rewrite lookup_delete_ne.
    + by rewrite lookup_insert_eq.
    + by rewrite lookup_insert_ne.
  - case_decide as D; subst; [by rewrite E|done].
Qed.

Lemma nextId_unsubscribe T hid b :
  nextId (EventBus_unsubscribe T hid b) = nextId b.
Proof.
  unfold EventBus_unsubscribe.
  destruct (subscribers b !! T) as [lst|]; [|done].
  by destruct (filter _ lst).
Qed.

Lemma no_empty_bucket_new : no_empty_bucket new_bus.
Proof. intros T lst E. unfold new_bus in E. simpl in E. by rewrite lookup_empty in E. Qed.

Lemma no_empty_bucket_subscribe T cb b :
  no_empty_bucket b → no_empty_bucket (EventBus_subscribe T cb b).1.
Proof.
  intros Hb T' lst. simpl. rewrite lookup_insert. case_decide as E.
  - intros [= <-]. by destruct (bucket b T).
  - apply Hb.
Qed.

Lemma no_empty_bucket_unsubscribe T hid b :
  no_empty_bucket b → no_empty_bucket (EventBus_unsubscribe T hid b).
Proof.
  intros Hb T' lst. unfold EventBus_unsubscribe.
  destruct (subscribers b !! T) as [l0|] eqn:E; [|apply Hb].
  destruct (filter _ l0) as [|x l'] eqn:F; simpl.
  - rewrite lookup_delete. case_decide; [done|apply Hb].
  - rewrite lookup_insert. case_decide; [by intros [= <-]|apply Hb].
Qed.

Lemma unsubscribe_absent T hid b :
  no_empty_bucket b →
  (∀ wrp, wrp ∈ bucket b T → id wrp ≠ hid) →
  EventBus_unsubscribe T hid b = b.
Proof.
  intros Hb Habs. unfold EventBus_unsubscribe.
  unfold bucket in Habs.
  destruct (subscribers b !! T) as [lst|] eqn:E; [|done]. simpl in Habs.
  rewrite filter_all by done.
  destruct lst as [|x l']; [by apply Hb in E|].
  rewrite insert_id by done. apply bus_eta.
Qed.

Lemma unsubscribe_removes T hid b wrp :
  wrp ∈ bucket (EventBus_unsubscribe T hid b) T → id wrp ≠ hid.
Proof.
  rewrite bucket_unsubscribe, decide_True by done.
  by intros [? _]%list_elem_of_filter.
Qed.

Lemma unsubscribe_last T hid b lst :
  subscribers b !! T = Some lst →
  (∀ wrp, wrp ∈ lst → id wrp = hid) →
  subscribers (EventBus_unsubscribe T hid b) !! T = None.
Proof.
  intros E Hall. unfold EventBus_unsubscribe. rewrite E.
  destruct (filter _ lst) as [|x l'] eqn:F; simpl.
  - apply lookup_delete_eq.
  - assert (Hx : x ∈ filter (λ w, id w ≠ hid) lst) by (rewrite F; left).
    apply list_elem_of_filter in Hx as [Hne Hin]. by apply Hall in Hin.
Qed.

Lemma run_ops_subscribe T cb ops b :
  run_ops (OpSubscribe T cb :: ops) b =
  ((run_ops ops (EventBus_subscribe T cb b).1).1,
   nextId b :: (run_ops ops (EventBus_subscribe T cb b).1).2).
Proof. simpl. by destruct (run_ops ops _). Qed.


(** ** What one publish call invokes *)

Lemma times_invoked_invoke_all hid v l :
  times_invoked hid (invoke_all v l) = length (filter (λ w, id w = hid) l).
Proof.
  unfold times_invoked, invoke_all.
  induction l as [|a l IH]; [done|]. simpl.
  destruct (decide (id a = hid)) as [E|E].
  - rewrite !filter_cons_True by done. simpl. by rewrite IH.
  - by rewrite !filter_cons_False.
Qed.


Section PublishFacts.

Variable call : Callback → Value → World → Outcome * World.

Lemma publish_deliver b T v w :
  EventBus_publish call b T v w = deliver call v (bucket b T) w.
Proof.
  unfold EventBus_publish, bucket.
  destruct (subscribers b !! T) as [[|x l]|]; done.
Qed.

(** The calls are a prefix of the snapshot, the whole of it when the
    loop runs to its end. *)
Lemma deliver_prefix v l w :
  ∃ k, (k ≤ length l)%nat ∧
       invocations (deliver call v l w) = invoke_all v (take k l) ∧
       (outcome (deliver call v l w) = Returned → k = length l).
Proof.
  revert w. induction l as [|a l IH]; intros w; simpl.
  - exists 0%nat. done.
  - destruct (call (callback a) v w) as [o w'] eqn:E.
    destruct o; simpl.
    + destruct (IH w') as (k & Hk & Hd & Hr).
      exists (S k). simpl. rewrite Hd. split; [lia|]. split; [done|].
      intros Ho. f_equal. by apply Hr.
    + exists 1%nat. simpl. split; [lia|]. by destruct l.
    + exists 1%nat. simpl. split; [lia|]. by destruct l.
Qed.

(** A wrapper is reached once the callbacks ahead of it have returned. *)
Lemma deliver_reaches v l :
  ∀ w i c,
    l !! i = Some c →
    (∀ j cj w0, (j < i)%nat → l !! j = Some cj →
                (call (callback cj) v w0).1 = Returned) →
    invocations (deliver call v l w) !! i =
      Some {| wrapper := c; argument := v |}.
Proof.
  induction l as [|a l IH]; intros w i c Hi Hret; [done|].
  simpl. destruct i as [|i].
  - simpl in Hi. injection Hi as ->.
    destruct (call (callback c) v w) as [o w']. by destruct o.
  - simpl in Hi.
    pose proof (Hret 0%nat a w ltac:(lia) eq_refl) as Ha.
    destruct (call (callback a) v w) as [o w']. simpl in Ha. subst o.
    simpl. apply IH; [done|].
    intros j cj w0 Hj Hl. apply (Hret (S j) cj w0); [lia|done].
Qed.


Lemma invoke_all_elem v l x :
  x ∈ invoke_all v l → wrapper x ∈ l ∧ argument x = v.
Proof.
  unfold invoke_all. intros (c & -> & Hc)%list_elem_of_fmap. done.
Qed.

End PublishFacts.

Lemma not_invoked_when_absent
  (call : Callback → Value → World → Outcome * World) T hid b v w :
  (∀ wrp, wrp ∈ bucket b T → id wrp ≠ hid) →
  times_invoked hid (invocations (EventBus_publish call b T v w)) = 0%nat.
Proof.
  intros Habs. rewrite publish_deliver.
  destruct (deliver_prefix call v (bucket b T) w) as (k & _ & -> & _).
  rewrite times_invoked_invoke_all, filter_none; [done|].
  intros x Hx Hid. apply elem_of_take in Hx as (i & Hi & _).
  apply (Habs x); [|done]. by eapply list_elem_of_lookup_2.
Qed.



(** C2. The calls of one publish(T, v) are taken from the snapshot of the
    bucket alone, whatever the callbacks do while the call runs: a wrapper
    that is not in the bucket when the snapshot is taken is not called, no
    handler id outside the snapshot is called, and this also holds for a
    wrapper that is in the bucket of the same bus when the call ends, as it
    is when a callback of this very call subscribed it. *)
Theorem publish_ignores_later_subscribers
  (call : Callback → Value → World → Outcome * World)
  (r : BusRef) (b : EventBus) (T : type_index) (v : Value) (w : World) :
  heap w !! r = Some b →
  let res := publish_at call r T v w in
  (∃ k, invocations res = invoke_all v (take k (bucket b T))) ∧
  (∀ wrp, wrp ∉ bucket b T → ∀ x, x ∈ invocations res → wrapper x ≠ wrp) ∧
  (∀ hid, (∀ wrp, wrp ∈ bucket b T → id wrp ≠ hid) →
          times_invoked hid (invocations res) = 0%nat) ∧
  (∀ b' wrp, heap (world res) !! r = Some b' →
             wrp ∈ bucket b' T → wrp ∉ bucket b T →
             ∀ x, x ∈ invocations res → wrapper x ≠ wrp).
Proof.
  intros Hb res. subst res. unfold publish_at. rewrite Hb.
  assert (Hids : ∀ hid, (∀ wrp, wrp ∈ bucket b T → id wrp ≠ hid) →
            times_invoked hid (invocations (EventBus_publish call b T v w))
            = 0%nat)
    by (intros hid; apply not_invoked_when_absent).
  rewrite publish_deliver in *.
  destruct (deliver_prefix call v (bucket b T) w) as (k & Hk & Hd & _).
  assert (Hsnap : ∀ wrp, wrp ∉ bucket b T →
            ∀ x, x ∈ invocations (deliver call v (bucket b T) w) →
                 wrapper x ≠ wrp).
  { intros wrp Hnew x Hx <-. apply Hnew. rewrite Hd in Hx.
    apply invoke_all_elem in Hx as [Hx _].
    apply elem_of_take in Hx as (i & Hi & _).
    by eapply list_elem_of_lookup_2. }
  split; [by exists k|]. split; [done|]. split; [done|].
  intros b' wrp _ _. apply Hsnap.
Qed.

Lemma publish_ignores_later_subscribers_witness :
  let late := {| id := 2; callback := quiet |} in
  let res := publish_at (run_callback 2) 0%nat 7%nat 42 reentrant_world in
  (∃ b', heap (world res) !! 0%nat = Some b' ∧ late ∈ bucket b' 7%nat) ∧
  (∀ x, x ∈ invocations res → wrapper x ≠ late).
Proof.
  intros late res. split.
  - exists {| subscribers :=
                {[ 7%nat := [{| id := 1; callback := resubscribing |}; late] ]};
              nextId := 3 |}.
    split; [reflexivity|]. right. left.
  - pose proof (publish_ignores_later_subscribers (run_callback 2) 0%nat
      {| subscribers := {[ 7%nat := [{| id := 1; callback := resubscribing |}] ]};
         nextId := 2 |} 7%nat 42 reentrant_world eq_refl) as (_ & H & _ & _).
    apply H. intros Hin. apply list_elem_of_singleton in Hin. discriminate Hin.
Defined.

(** ** Handler ids *)

Lemma SIZE_MOD_pos : 0 < SIZE_MOD.
Proof. unfold SIZE_MOD, SIZE_BITS. lia. Qed.

(** Without wrap-around the ids are consecutive, from [nextId] on. *)
Lemma run_ops_ids ops :
  ∀ b, 0 ≤ nextId b →
       nextId b + Z.of_nat (subscribe_count ops) ≤ SIZE_MOD →
       (run_ops ops b).2 =
         map (λ i, nextId b + Z.of_nat i) (seq 0 (subscribe_count ops)).
Proof.
  pose proof SIZE_MOD_pos as HM.
  induction ops as [|[T cb|T hid] ops IH]; intros b Hlo Hhi; [done| |].
  - rewrite run_ops_subscribe.
    change (subscribe_count (OpSubscribe T cb :: ops))
      with (S (subscribe_count ops)) in *.
    pose proof (Z.mod_pos_bound (nextId b + 1) SIZE_MOD HM) as Hmod.
    cbn [snd seq map]. f_equal; [lia|].
    destruct (subscribe_count ops) as [|n'] eqn:Hn.
    + rewrite IH; rewrite ?Hn; simpl; [done|lia|lia].
    + assert (Hnext : (nextId b + 1) mod SIZE_MOD = nextId b + 1)
        by (apply Z.mod_small; lia).
      rewrite IH; rewrite ?Hn; simpl nextId; rewrite ?Hnext; [|lia|lia].
      rewrite <- (seq_shift (S n') 0), map_map.
      apply map_ext. intros i. lia.
  - change (subscribe_count (OpUnsubscribe T hid :: ops))
      with (subscribe_count ops) in *.
    simpl run_ops. rewrite IH; rewrite nextId_unsubscribe; done.
Qed.

Lemma consecutive_sorted k n :
  ∀ s, StronglySorted Z.lt (map (λ i, k + Z.of_nat i) (seq s n)) ∧
       Forall (λ x, k + Z.of_nat s ≤ x) (map (λ i, k + Z.of_nat i) (seq s n)).
Proof.
  induction n as [|n IH]; intros s; simpl.
  - split; constructor.
  - destruct (IH (S s)) as [Hs Hb]. split.
    + constructor; [done|]. eapply Forall_impl; [exact Hb|]. simpl. lia.
    + constructor; [lia|]. eapply Forall_impl; [exact Hb|]. simpl. lia.
Qed.

Lemma sorted_lt_NoDup (l : list Z) : StronglySorted Z.lt l → NoDup l.
Proof.
  induction 1 as [|x l Hs IH Hall]; constructor; [|done].
  intros Hin. rewrite Forall_forall in Hall. specialize (Hall x Hin). lia.
Qed.

(** As long as fewer than 2^64 subscribe calls have been made on a bus,
    whatever unsubscribe calls come in between, the k-th subscribe call is
    given the handler id k. *)
Lemma handler_ids_below_wrap (ops : list BusOp) :
  Z.of_nat (subscribe_count ops) < SIZE_MOD →
  let hids := (run_ops ops new_bus).2 in
  hids = map Z.of_nat (seq 1 (subscribe_count ops)) ∧
  StronglySorted Z.lt hids ∧ NoDup hids ∧ 0 ∉ hids.
Proof.
  intros Hn hids.
  assert (Hids : hids = map (λ i, 1 + Z.of_nat i) (seq 0 (subscribe_count ops))).
  { subst hids. rewrite run_ops_ids; [done|done|]. simpl nextId. lia. }
  destruct (consecutive_sorted 1 (subscribe_count ops) 0) as [Hs Hb].
  rewrite <- Hids in Hs, Hb.
  split; [|split; [done|split; [by apply sorted_lt_NoDup|]]].
  - rewrite Hids, <- seq_shift, map_map. apply map_ext. intros i. lia.
  - intros H0. rewrite Forall_forall in Hb. specialize (Hb 0 H0). lia.
Qed.

(** ** Tokens *)

Lemma unsubscribe_released h s :
  Released s → Subscription_unsubscribe h s = (h, s).
Proof.
  unfold Released, Subscription_unsubscribe. intros ->. done.
Qed.

Lemma unsubscribe_active h s :
  Active s →
  Subscription_unsubscribe h s =
    (match lock h (weakBus s) with
     | Some (r, b) =>
         <[r := EventBus_unsubscribe (eventType s) (handlerId s) b]> h
     | None => h
     end,
     {| weakBus := None; eventType := eventType s; handlerId := 0 |}).
Proof.
  unfold Active, Subscription_unsubscribe. intros Hs.
  destruct (Z.eqb_spec (handlerId s) 0); done.
Qed.

Lemma unsubscribe_result_released h s :
  Released (Subscription_unsubscribe h s).2.
Proof.
  unfold Subscription_unsubscribe, Released.
  destruct (Z.eqb_spec (handlerId s) 0); done.
Qed.

Lemma unsubscribe_twice h s :
  Subscription_unsubscribe (Subscription_unsubscribe h s).1
                           (Subscription_unsubscribe h s).2
  = Subscription_unsubscribe h s.
Proof.
  rewrite unsubscribe_released by apply unsubscribe_result_released.
  by destruct (Subscription_unsubscribe h s).
Qed.

Lemma moveFrom_result this other :
  Subscription_moveFrom this other =
    (other, {| weakBus := None; eventType := eventType other; handlerId := 0 |}).
Proof. by destruct other. Qed.

Lemma lock_Some h wp r b :
  lock h wp = Some (r, b) ↔ wp = Some r ∧ h !! r = Some b.
Proof.
  unfold lock. destruct wp as [r'|].
  - destruct (h !! r') as [b'|] eqn:E; split.
    + by intros [= -> ->].
    + intros [[= ->] Hb]. rewrite E in Hb. by injection Hb as ->.
    + done.
    + intros [[= ->] Hb]. by rewrite E in Hb.
  - split; [done|]. by intros [? _].
Qed.

Lemma lock_None h wp :
  lock h wp = None ↔ wp = None ∨ ∃ r, wp = Some r ∧ h !! r = None.
Proof.
  unfold lock. destruct wp as [r'|].
  - destruct (h !! r') as [b'|] eqn:E; split.
    + done.
    + intros [?|(r & [= ->] & Hr)]; [done|]. by rewrite E in Hr.
    + intros _. right. by exists r'.
    + done.
  - split; [by left|done].
Qed.

(** What a release leaves of the bus at [r]. *)
Lemma unsubscribe_heap_lookup h s r :
  (Subscription_unsubscribe h s).1 !! r =
    if decide (Active s ∧ weakBus s = Some r)
    then EventBus_unsubscribe (eventType s) (handlerId s) <$> h !! r
    else h !! r.
Proof.
  unfold Subscription_unsubscribe, Active.
  destruct (Z.eqb_spec (handlerId s) 0) as [E|E]; simpl.
  { rewrite decide_False; [done|]. by intros [? _]. }
  destruct (lock h (weakBus s)) as [[r' b']|] eqn:L.
  - apply lock_Some in L as [Hw Hb]. rewrite lookup_insert.
    destruct (decide (r' = r)) as [->|Hne].
    + rewrite decide_True by done. by rewrite Hb.
    + rewrite decide_False; [done|]. rewrite Hw. intros [_ [= ?]]. done.
  - apply lock_None in L as [Hw|(r' & Hw & Hb)].
    + rewrite decide_False; [done|]. rewrite Hw. by intros [_ ?].
    + case_decide as D; [|done]. destruct D as [_ D]. rewrite Hw in D.
      injection D as <-. by rewrite Hb.
Qed.

Lemma heap_ok_unsubscribe h s :
  heap_ok h → heap_ok (Subscription_unsubscribe h s).1.
Proof.
  intros Hh r b. rewrite unsubscribe_heap_lookup.
  case_decide; [|apply Hh].
  destruct (h !! r) as [b0|] eqn:E; [|done].
  intros [= <-]. apply no_empty_bucket_unsubscribe. by eapply Hh.
Qed.

Lemma heap_ok_insert h r b :
  heap_ok h → no_empty_bucket b → heap_ok (<[r := b]> h).
Proof.
  intros Hh Hb r' b'. rewrite lookup_insert.
  case_decide; [by intros [= <-]|apply Hh].
Qed.

Lemma heap_ok_delete h r : heap_ok h → heap_ok (delete r h).
Proof.
  intros Hh r' b'. rewrite lookup_delete.
  case_decide; [done|apply Hh].
Qed.

Lemma heap_ok_move_assign h this other :
  heap_ok h → heap_ok (Subscription_move_assign h this other).1.1.
Proof.
  intros Hh. unfold Subscription_move_assign.
  pose proof (heap_ok_unsubscribe h this Hh) as Hu.
  destruct (Subscription_unsubscribe h this) as [h' this'].
  by rewrite moveFrom_result.
Qed.

(** ** The client keeps the invariant *)

Lemma world_ok_release s w : world_ok w → world_ok (release_token s w).
Proof.
  unfold world_ok, release_token. intros Hw.
  destruct (tokens w !! s) as [tok|]; [|done].
  pose proof (heap_ok_unsubscribe (heap w) tok Hw) as Hu.
  by destruct (Subscription_unsubscribe (heap w) tok).
Qed.

Lemma world_ok_destroy s w : world_ok w → world_ok (destroy_token s w).
Proof.
  unfold world_ok, destroy_token. intros Hw.
  destruct (tokens w !! s) as [tok|]; [|done].
  by apply heap_ok_unsubscribe.
Qed.

Lemma world_ok_move dst src w : world_ok w → world_ok (move_token dst src w).
Proof.
  unfold world_ok, move_token. intros Hw.
  destruct (tokens w !! src) as [other|]; [|done].
  destruct (tokens w !! dst) as [this|].
  - case_decide; [done|].
    pose proof (heap_ok_move_assign (heap w) this other Hw) as Hm.
    by destruct (Subscription_move_assign (heap w) this other) as [[h' t'] o'].
  - unfold Subscription_move_construct. by rewrite moveFrom_result.
Qed.

Lemma world_ok_subscribe r T cb dst w :
  world_ok w → world_ok (subscribe_token r T cb dst w).
Proof.
  unfold world_ok, subscribe_token. intros Hw.
  destruct (heap w !! r) as [b|] eqn:E; [|done].
  pose proof (no_empty_bucket_subscribe T cb b (Hw r b E)) as Hb.
  destruct (EventBus_subscribe T cb b) as [b' hid]. simpl in Hb.
  pose proof (heap_ok_insert (heap w) r b' Hw Hb) as Hi.
  destruct (tokens w !! dst) as [this|]; [|done].
  pose proof (heap_ok_move_assign (<[r:=b']> (heap w)) this
    {| weakBus := Some r; eventType := T; handlerId := hid |} Hi) as Hm.
  destruct (Subscription_move_assign _ this _) as [[h2 t'] tmp']. simpl in *.
  by apply heap_ok_unsubscribe.
Qed.

Section ClientInvariant.

Variable call : Callback → Value → World → Outcome * World.
Hypothesis call_ok : ∀ cb v w, world_ok w → world_ok (call cb v w).2.

Lemma world_ok_deliver v l : ∀ w, world_ok w → world_ok (world (deliver call v l w)).
Proof.
  induction l as [|a l IH]; intros w Hw; [done|]. simpl.
  pose proof (call_ok (callback a) v w Hw) as Hc.
  destruct (call (callback a) v w) as [o w']. simpl in Hc.
  destruct o; simpl; [by apply IH|done|done].
Qed.

Lemma world_ok_publish r T v w :
  world_ok w → world_ok (world (publish_at call r T v w)).
Proof.
  intros Hw. unfold publish_at.
  destruct (heap w !! r) as [b|]; [|done].
  rewrite publish_deliver. by apply world_ok_deliver.
Qed.

Lemma world_ok_exec_action a w :
  world_ok w → world_ok (exec_action call a w).2.
Proof.
  intros Hw. destruct a; simpl.
  - by apply world_ok_subscribe.
  - by apply world_ok_publish.
  - by apply world_ok_release.
  - by apply world_ok_destroy.
  - by apply world_ok_move.
  - by apply heap_ok_delete.
  - done.
Qed.

Lemma world_ok_exec_actions acts :
  ∀ w, world_ok w → world_ok (exec_actions call acts w).2.
Proof.
  induction acts as [|a acts IH]; intros w Hw; [done|]. simpl.
  pose proof (world_ok_exec_action a w Hw) as Ha.
  destruct (exec_action call a w) as [o w']. simpl in Ha.
  destruct o; [by apply IH|done|done].
Qed.

End ClientInvariant.

Lemma world_ok_run_callback fuel :
  ∀ cb v w, world_ok w → world_ok (run_callback fuel cb v w).2.
Proof.
  induction fuel as [|fuel IH]; intros cb v w Hw; [done|].
  simpl. by apply world_ok_exec_actions.
Qed.

Lemma world_ok_run_program fuel prog w :
  world_ok w → world_ok (run_program fuel prog w).2.
Proof.
  apply world_ok_exec_actions. apply world_ok_run_callback.
Qed.

(** ** Removal *)

Lemma unsubscribe_again T hid b :
  no_empty_bucket b →
  EventBus_unsubscribe T hid (EventBus_unsubscribe T hid b) =
  EventBus_unsubscribe T hid b.
Proof.
  intros Hb. apply unsubscribe_absent.
  - by apply no_empty_bucket_unsubscribe.
  - intros wrp. apply unsubscribe_removes.
Qed.

Lemma subscribe_then_unsubscribe T cb b :
  subscribers b !! T = None →
  subscribers (EventBus_unsubscribe T (nextId b) (EventBus_subscribe T cb b).1)
  = subscribers b.
Proof.
  intros Hnone. unfold EventBus_unsubscribe, EventBus_subscribe, bucket.
  simpl. rewrite lookup_insert_eq, Hnone. simpl.
  rewrite filter_cons_False by (simpl; auto). rewrite filter_nil. simpl.
  rewrite delete_insert_eq. by apply delete_id.
Qed.

(** C5. Removal is idempotent. On a bus without empty buckets,
    unsubscribe(type, id) with an id that is not in the bucket of the type
    returns the registry as it was, and so does a second unsubscribe of the
    same id. Releasing a token leaves it released; releasing it again, or
    releasing any released token, returns heap and token as they were. No
    release calls a callback, and once an active token of a live bus is
    released no later publish call of its type calls a wrapper with its
    handler id, before or after a second release. *)
Theorem unsubscribe_idempotent
  (T : type_index) (hid : HandlerId) (b : EventBus)
  (h : gmap BusRef EventBus) (s : Subscription) :
  no_empty_bucket b →
  (∀ wrp, wrp ∈ bucket b T → id wrp ≠ hid) →
  let h1 := (Subscription_unsubscribe h s).1 in
  let s1 := (Subscription_unsubscribe h s).2 in
  EventBus_unsubscribe T hid b = b ∧
  (∀ b0 hid0, no_empty_bucket b0 →
     EventBus_unsubscribe T hid0 (EventBus_unsubscribe T hid0 b0) =
     EventBus_unsubscribe T hid0 b0) ∧
  Released s1 ∧
  Subscription_unsubscribe h1 s1 = (h1, s1) ∧
  (Released s → Subscription_unsubscribe h s = (h, s)) ∧
  (∀ r b1 call v w,
     Active s → weakBus s = Some r →
     (Subscription_unsubscribe h1 s1).1 !! r = Some b1 →
     times_invoked (handlerId s)
       (invocations (EventBus_publish call b1 (eventType s) v w)) = 0%nat).
Proof.
  intros Hb Habs h1 s1.
  assert (Hrel : Released s1) by apply unsubscribe_result_released.
  assert (Htwice : Subscription_unsubscribe h1 s1 = (h1, s1))
    by by apply unsubscribe_released.
  split; [by apply unsubscribe_absent|].
  split; [intros b0 hid0; apply unsubscribe_again|].
  split; [done|]. split; [done|].
  split; [apply unsubscribe_released|].
  intros r b1 call v w Hact Hweak. rewrite Htwice. simpl. subst h1.
  rewrite unsubscribe_heap_lookup, decide_True by done.
  destruct (h !! r) as [b0|]; [|done]. intros [= <-].
  apply not_invoked_when_absent. intros wrp. apply unsubscribe_removes.
Qed.

Lemma unsubscribe_idempotent_witness :
  let b := (EventBus_subscribe 7%nat quiet new_bus).1 in
  let h : gmap BusRef EventBus := {[ 0%nat := b ]} in
  let s := {| weakBus := Some 0%nat; eventType := 7%nat; handlerId := 1 |} in
  EventBus_unsubscribe 7%nat 5 b = b ∧
  Subscription_unsubscribe (Subscription_unsubscribe h s).1
                           (Subscription_unsubscribe h s).2
  = ({[ 0%nat := {| subscribers := ∅; nextId := 2 |} ]},
     {| weakBus := None; eventType := 7%nat; handlerId := 0 |}).
Proof.
  intros b h s.
  assert (Hb : no_empty_bucket b).
  { apply no_empty_bucket_subscribe, no_empty_bucket_new. }
  assert (Habs : ∀ wrp, wrp ∈ bucket b 7%nat → id wrp ≠ 5).
  { intros wrp Hin. apply list_elem_of_singleton in Hin. by subst wrp. }
  destruct (unsubscribe_idempotent 7%nat 5 b h s Hb Habs)
    as (H1 & _ & _ & H4 & _).
  split; [exact H1|]. rewrite H4. reflexivity.
Defined.

Lemma heap_release_token s w tok :
  tokens w !! s = Some tok →
  heap (release_token s w) = (Subscription_unsubscribe (heap w) tok).1 ∧
  tokens (release_token s w) =
    <[s := (Subscription_unsubscribe (heap w) tok).2]> (tokens w).
Proof.
  intros Hs. unfold release_token. rewrite Hs.
  by destruct (Subscription_unsubscribe (heap w) tok).
Qed.

Lemma heap_destroy_token s w tok :
  tokens w !! s = Some tok →
  heap (destroy_token s w) = (Subscription_unsubscribe (heap w) tok).1 ∧
  tokens (destroy_token s w) = delete s (tokens w).
Proof. intros Hs. unfold destroy_token. by rewrite Hs. Qed.

Lemma world_ok_sample : world_ok sample_world.
Proof.
  intros r b Hr. unfold sample_world in Hr. simpl in Hr.
  apply lookup_singleton_Some in Hr as [_ <-].
  apply no_empty_bucket_new.
Qed.

(** C6. The map never holds an empty bucket: a client program started in a
    world whose buses have none, run for as long as one likes, leaves a
    world in which every key of every subscriber map has a non-empty list.
    And when the only wrapper in the bucket of T is the one of an active
    token, releasing or destroying that token erases the key T; a subscribe
    for a type without bucket followed by the unsubscribe of the new id
    gives back the subscriber map as it was. *)
Theorem no_empty_bucket_kept (fuel : nat) (prog : list Action) (w : World) :
  world_ok w →
  (∀ r b T lst,
     heap (run_program fuel prog w).2 !! r = Some b →
     subscribers b !! T = Some lst → lst ≠ []) ∧
  (∀ s tok r b wrp,
     tokens w !! s = Some tok → Active tok → weakBus tok = Some r →
     heap w !! r = Some b →
     subscribers b !! eventType tok = Some [wrp] → id wrp = handlerId tok →
     (∃ b1, heap (release_token s w) !! r = Some b1 ∧
            subscribers b1 !! eventType tok = None) ∧
     (∃ b2, heap (destroy_token s w) !! r = Some b2 ∧
            subscribers b2 !! eventType tok = None)) ∧
  (∀ T cb b,
     subscribers b !! T = None →
     subscribers
       (EventBus_unsubscribe T (nextId b) (EventBus_subscribe T cb b).1)
     = subscribers b).
Proof.
  intros Hw. split; [|split].
  - intros r b T lst Hr. by apply (world_ok_run_program fuel prog w Hw r b).
  - intros s tok r b wrp Hs Hact Hweak Hr Hbucket Hid.
    destruct (heap_release_token s w tok Hs) as [-> _].
    destruct (heap_destroy_token s w tok Hs) as [-> _].
    rewrite unsubscribe_heap_lookup, decide_True, Hr by done. simpl.
    assert (Hgone : subscribers
              (EventBus_unsubscribe (eventType tok) (handlerId tok) b)
              !! eventType tok = None).
    { eapply unsubscribe_last; [exact Hbucket|].
      intros x Hx. apply list_elem_of_singleton in Hx. by subst x. }
    split; eexists; (split; [reflexivity|exact Hgone]).
  - intros T cb b. apply subscribe_then_unsubscribe.
Qed.

Lemma no_empty_bucket_kept_witness :
  let prog := [ActSubscribe 0%nat 7%nat resubscribing 1%nat;
               ActPublish 0%nat 7%nat 42;
               ActRelease 1%nat; ActDestroy 2%nat] in
  world_ok sample_world ∧
  (∀ r b T lst,
     heap (run_program 3 prog sample_world).2 !! r = Some b →
     subscribers b !! T = Some lst → lst ≠ []).
Proof.
  intros prog. split; [exact world_ok_sample|].
  exact (proj1 (no_empty_bucket_kept 3 prog sample_world world_ok_sample)).
Defined.

(** C7. A token that is still active while its bus is gone: the release
    removes nothing, there is no failure to report (the release is a total
    function of heap and token), and the token ends released, with its bus
    reference cleared. The same holds for the destructor, and in a client
    right after the bus has been destroyed. *)
Theorem release_without_bus
  (h : gmap BusRef EventBus) (s : Subscription) (r : BusRef) :
  Active s → weakBus s = Some r → h !! r = None →
  let gone := {| weakBus := None; eventType := eventType s; handlerId := 0 |} in
  Subscription_unsubscribe h s = (h, gone) ∧
  Subscription_destroy h s = h ∧
  Released gone ∧
  (∀ call w slot,
     tokens w !! slot = Some s →
     let w1 := (exec_action call (ActDestroyBus r) w).2 in
     release_token slot w1 =
       {| heap := heap w1; tokens := <[slot := gone]> (tokens w1) |} ∧
     destroy_token slot w1 =
       {| heap := heap w1; tokens := delete slot (tokens w1) |}).
Proof.
  intros Hact Hweak Hdead gone.
  assert (Hfree : ∀ h0, h0 !! r = None → Subscription_unsubscribe h0 s = (h0, gone)).
  { intros h0 H0. rewrite unsubscribe_active by done.
    unfold lock. by rewrite Hweak, H0. }
  split; [by apply Hfree|]. split.
  { unfold Subscription_destroy. by rewrite Hfree. }
  split; [done|].
  intros call w slot Hslot w1. subst w1. simpl.
  unfold release_token, destroy_token, Subscription_destroy. simpl.
  rewrite Hslot, Hfree by apply lookup_delete_eq. done.
Qed.

Lemma release_without_bus_witness :
  let s := {| weakBus := Some 0%nat; eventType := 7%nat; handlerId := 1 |} in
  Subscription_unsubscribe ∅ s =
    (∅, {| weakBus := None; eventType := 7%nat; handlerId := 0 |}).
Proof.
  intros s.
  refine (proj1 (release_without_bus ∅ s 0%nat _ eq_refl _)).
  - unfold Active. simpl. lia.
  - apply lookup_empty.
Defined.

(** C8. A move, by construction or by assignment, hands the bus reference,
    the type and the id of the source to the destination and leaves the
    source released, with handler id 0 and no bus reference. Nothing is
    removed for the source: the move constructor does not touch a registry,
    the assignment changes the registry by the release of the destination's
    own former subscription only (not at all when the destination was
    released), and the wrapper of the moved subscription stays in its
    bucket. Releasing or destroying the moved-from source changes nothing. *)
Theorem move_transfers_subscription
  (h : gmap BusRef EventBus) (this other : Subscription) :
  let gone := {| weakBus := None; eventType := eventType other;
                 handlerId := 0 |} in
  Subscription_move_construct other = (other, gone) ∧
  Subscription_move_assign h this other =
    ((Subscription_unsubscribe h this).1, other, gone) ∧
  Released gone ∧ weakBus gone = None ∧
  (Released this → (Subscription_move_assign h this other).1.1 = h) ∧
  (∀ r b wrp,
     h !! r = Some b → wrp ∈ bucket b (eventType other) →
     id wrp = handlerId other →
     ¬ (Active this ∧ weakBus this = Some r ∧
        eventType this = eventType other ∧ handlerId this = handlerId other) →
     ∃ b', (Subscription_move_assign h this other).1.1 !! r = Some b' ∧
           wrp ∈ bucket b' (eventType other)) ∧
  (∀ h', Subscription_unsubscribe h' gone = (h', gone) ∧
         Subscription_destroy h' gone = h').
Proof.
  intros gone.
  assert (Hassign : Subscription_move_assign h this other =
            ((Subscription_unsubscribe h this).1, other, gone)).
  { unfold Subscription_move_assign.
    destruct (Subscription_unsubscribe h this) as [h' this'].
    by rewrite moveFrom_result. }
  split; [apply moveFrom_result|]. split; [done|].
  split; [done|]. split; [done|]. rewrite Hassign. simpl.
  split; [|split].
  - intros Hrel. by rewrite unsubscribe_released.
  - intros r b wrp Hr Hin Hid Hother.
    rewrite unsubscribe_heap_lookup, Hr.
    case_decide as D; [|by exists b]. destruct D as [Hact Hweak].
    eexists. split; [reflexivity|].
    rewrite bucket_unsubscribe. case_decide as E; [|done].
    apply list_elem_of_filter. split; [|by rewrite <- E].
    intros Hsame. apply Hother. repeat split; try done. congruence.
  - intros h'. unfold Subscription_destroy.
    by rewrite unsubscribe_released.
Qed.

(** C9. A move assignment between two token variables first releases what
    the destination held: the registry after the assignment is the registry
    after the release of the destination's former subscription, whose
    wrapper is gone from its bucket when its bus is alive; then the
    destination holds the subscription of the source and the source is
    released. Assigning a variable to itself changes neither the tokens nor
    the registry. *)
Theorem move_assign_releases_destination
  (dst src : Slot) (w : World) (this other : Subscription) :
  tokens w !! dst = Some this →
  tokens w !! src = Some other →
  move_token dst dst w = w ∧
  (dst ≠ src →
   let w' := move_token dst src w in
   heap w' = (Subscription_unsubscribe (heap w) this).1 ∧
   tokens w' !! dst = Some other ∧
   tokens w' !! src =
     Some {| weakBus := None; eventType := eventType other; handlerId := 0 |} ∧
   (∀ r b,
      Active this → weakBus this = Some r → heap w !! r = Some b →
      heap w' !! r =
        Some (EventBus_unsubscribe (eventType this) (handlerId this) b) ∧
      ∀ wrp,
        wrp ∈ bucket (EventBus_unsubscribe (eventType this) (handlerId this) b)
                     (eventType this) →
        id wrp ≠ handlerId this)).
Proof.
  intros Hdst Hsrc. split.
  - unfold move_token. rewrite Hdst. by rewrite decide_True.
  - intros Hne w'. subst w'. unfold move_token.
    rewrite Hsrc, Hdst, decide_False by done.
    unfold Subscription_move_assign.
    destruct (Subscription_unsubscribe (heap w) this) as [h' this'] eqn:U.
    rewrite moveFrom_result. simpl.
    split; [done|]. split; [apply lookup_insert_eq|].
    split; [by rewrite lookup_insert_ne, lookup_insert_eq|].
    intros r b Hact Hweak Hr.
    replace h' with (Subscription_unsubscribe (heap w) this).1 by by rewrite U.
    rewrite unsubscribe_heap_lookup, decide_True, Hr by done.
    split; [done|]. intros wrp. apply unsubscribe_removes.
Qed.

Lemma move_assign_releases_destination_witness :
  let b := (EventBus_subscribe 8%nat throwing
             (EventBus_subscribe 7%nat quiet new_bus).1).1 in
  let this := {| weakBus := Some 0%nat; eventType := 7%nat; handlerId := 1 |} in
  let other := {| weakBus := Some 0%nat; eventType := 8%nat; handlerId := 2 |} in
  let w := {| heap := {[ 0%nat := b ]};
              tokens := {[ 1%nat := this; 2%nat := other ]} |} in
  move_token 1%nat 1%nat w = w ∧
  heap (move_token 1%nat 2%nat w) !! 0%nat =
    Some {| subscribers := {[ 8%nat := [{| id := 2; callback := throwing |}] ]};
            nextId := 3 |} ∧
  tokens (move_token 1%nat 2%nat w) !! 1%nat = Some other.
Proof.
  intros b this other w.
  destruct (move_assign_releases_destination 1%nat 2%nat w this other
              eq_refl eq_refl) as [Hself Hmove].
  destruct (Hmove ltac:(discriminate)) as (_ & Hdst & _ & Hbus).
  split; [exact Hself|]. split; [|exact Hdst].
  destruct (Hbus 0%nat b ltac:(discriminate) eq_refl eq_refl) as [Hb _].
  exact Hb.
Defined.

(** C10. A default-constructed token has handler id 0 and an empty bus
    reference, so it is released from the start: releasing it or destroying
    it returns the registry, and the token, as they were. *)
Theorem default_token_released
  (h : gmap BusRef EventBus) (w : World) (s : Slot) :
  handlerId Subscription_default = 0 ∧
  weakBus Subscription_default = None ∧
  Released Subscription_default ∧
  Subscription_unsubscribe h Subscription_default = (h, Subscription_default) ∧
  Subscription_destroy h Subscription_default = h ∧
  (tokens w !! s = Some Subscription_default →
   heap (release_token s w) = heap w ∧
   tokens (release_token s w) !! s = Some Subscription_default ∧
   heap (destroy_token s w) = heap w).
Proof.
  split; [done|]. split; [done|]. split; [done|].
  split; [done|]. split; [done|].
  intros Hs. unfold release_token, destroy_token. rewrite Hs. simpl.
  split; [done|]. split; [apply lookup_insert_eq|done].
Qed.

(** ** Runs of small clients *)

(** Subscribe a listener, publish 5, release the token, publish 6: one
    call, with 5, and the bucket is gone after the release. *)
Example ping_scenario :
  let w1 := (run_program 1 [ActSubscribe 0%nat 7%nat quiet 1%nat] sample_world).2 in
  let r1 := publish_at (run_callback 1) 0%nat 7%nat 5 w1 in
  let w2 := release_token 1%nat (world r1) in
  let r2 := publish_at (run_callback 1) 0%nat 7%nat 6 w2 in
  invocations r1 =
    [{| wrapper := {| id := 1; callback := quiet |}; argument := 5 |}] ∧
  invocations r2 = [] ∧
  heap w2 !! 0%nat = Some {| subscribers := ∅; nextId := 2 |}.
Proof. repeat split; reflexivity. Qed.

(** A listener releases its own token and subscribes another listener
    while it is being called: the call returns, the newcomer is in the
    bucket and was not called. *)
Example reentrant_scenario :
  let w1 := (run_program 1 [ActSubscribe 0%nat 7%nat self_replacing 1%nat]
               sample_world).2 in
  let res := publish_at (run_callback 2) 0%nat 7%nat 5 w1 in
  outcome res = Returned ∧
  invocations res =
    [{| wrapper := {| id := 1; callback := self_replacing |}; argument := 5 |}] ∧
  heap (world res) !! 0%nat =
    Some {| subscribers := {[ 7%nat := [{| id := 2; callback := quiet |}] ]};
            nextId := 3 |}.
Proof. repeat split; reflexivity. Qed.

(** Publishing another type calls nobody. *)
Example other_type_scenario :
  let w1 := (run_program 1 [ActSubscribe 0%nat 7%nat quiet 1%nat] sample_world).2 in
  invocations (publish_at (run_callback 1) 0%nat 8%nat 5 w1) = [].
Proof. reflexivity. Qed.

(** A token that outlives its bus. *)
Example orphan_scenario :
  (run_program 1 [ActSubscribe 0%nat 7%nat quiet 1%nat; ActDestroyBus 0%nat;
                  ActDestroy 1%nat] sample_world)
  = (Returned, {| heap := ∅; tokens := ∅ |}).
Proof. reflexivity. Qed.

(** * Further properties of the bus *)

(** ** The loop of publish *)

Lemma deliver_app call v l1 l2 w :
  deliver call v (l1 ++ l2) w =
    match outcome (deliver call v l1 w) with
    | Returned =>
        {| outcome := outcome (deliver call v l2 (world (deliver call v l1 w)));
           world := world (deliver call v l2 (world (deliver call v l1 w)));
           invocations :=
             invocations (deliver call v l1 w) ++
             invocations (deliver call v l2 (world (deliver call v l1 w))) |}
    | _ => deliver call v l1 w
    end.
Proof.
  revert w. induction l1 as [|a l1 IH]; intros w; simpl.
  - by destruct (deliver call v l2 w).
  - destruct (call (callback a) v w) as [o w']. destruct o; simpl; [|done|done].
    rewrite IH. destruct (outcome (deliver call v l1 w')) eqn:E; simpl;
      by rewrite ?E.
Qed.

Lemma deliver_returned call v l w :
  outcome (deliver call v l w) = Returned →
  invocations (deliver call v l w) = invoke_all v l.
Proof.
  intros Ho. destruct (deliver_prefix call v l w) as (k & _ & Hd & Hk).
  rewrite Hd, (Hk Ho). by rewrite firstn_all.
Qed.

Lemma exec_actions_registry call call' acts :
  forallb registry_action acts = true →
  ∀ w, exec_actions call acts w = exec_actions call' acts w ∧
       (exec_actions call acts w).1 = Returned.
Proof.
  induction acts as [|a acts IH]; intros Hacts w; [done|].
  simpl in Hacts. apply andb_true_iff in Hacts as [Ha Hrest].
  simpl. destruct a; try discriminate Ha; simpl; by apply IH.
Qed.

Lemma run_callback_registry fuel cb v w :
  forallb registry_action (cb v) = true →
  run_callback (S fuel) cb v w = run_callback 1 cb v w ∧
  (run_callback (S fuel) cb v w).1 = Returned.
Proof.
  intros Hcb.
  change (run_callback (S fuel) cb v w)
    with (exec_actions (run_callback fuel) (cb v) w).
  change (run_callback 1 cb v w)
    with (exec_actions (run_callback 0) (cb v) w).
  by apply exec_actions_registry.
Qed.

Lemma deliver_registry fuel v l :
  (∀ wrp, wrp ∈ l → forallb registry_action (callback wrp v) = true) →
  ∀ w, deliver (run_callback (S fuel)) v l w = deliver (run_callback 1) v l w ∧
       outcome (deliver (run_callback (S fuel)) v l w) = Returned.
Proof.
  induction l as [|a l IH]; intros Hl w; [done|].
  assert (Ha : forallb registry_action (callback a v) = true)
    by (apply Hl; left).
  assert (Hrest : ∀ wrp, wrp ∈ l →
            forallb registry_action (callback wrp v) = true)
    by (intros wrp Hin; apply Hl; by right).
  destruct (run_callback_registry fuel (callback a) v w Ha) as [Heq Hret].
  cbn [deliver]. rewrite <- Heq.
  destruct (run_callback (S fuel) (callback a) v w) as [o w'].
  simpl in Hret. subst o.
  destruct (IH Hrest w') as [Hsame Hout]. rewrite <- Hsame. done.
Qed.

(** X1. publish does nothing of its own to the bus or to the tokens: when
    the callbacks of the bucket return and leave the world as it is, the
    call returns in the world it was made in, after one call per wrapper of
    the bucket. *)
Theorem publish_no_own_effect
  (call : Callback → Value → World → Outcome * World)
  (b : EventBus) (T : type_index) (v : Value) (w : World) :
  (∀ wrp w0, wrp ∈ bucket b T → call (callback wrp) v w0 = (Returned, w0)) →
  EventBus_publish call b T v w =
    {| outcome := Returned; world := w;
       invocations := invoke_all v (bucket b T) |}.
Proof.
  rewrite publish_deliver. generalize (bucket b T). intros l.
  induction l as [|a l IH]; intros Hidle; [done|].
  cbn [deliver]. rewrite Hidle by left.
  rewrite IH; [done|]. intros wrp w0 Hin. apply Hidle. by right.
Qed.

Lemma publish_no_own_effect_witness :
  let b := (EventBus_subscribe 7%nat quiet
             (EventBus_subscribe 7%nat quiet new_bus).1).1 in
  EventBus_publish (run_callback 1) b 7%nat 42 sample_world =
    {| outcome := Returned; world := sample_world;
       invocations :=
         [{| wrapper := {| id := 1; callback := quiet |}; argument := 42 |};
          {| wrapper := {| id := 2; callback := quiet |}; argument := 42 |}] |}.
Proof.
  intros b. refine (publish_no_own_effect (run_callback 1) b 7%nat 42
                      sample_world _).
  intros wrp w0 Hin.
  apply elem_of_cons in Hin as [->|Hin]; [reflexivity|].
  apply list_elem_of_singleton in Hin as ->. reflexivity.
Defined.

(** X2. An exception of a callback leaves publish at once: when the
    callbacks ahead of a wrapper return and its own callback does not, the
    publish call ends the way that callback ended, in the world that
    callback left, and the calls made are those of the wrappers up to and
    including it. *)
Theorem publish_stops_at_first_failure
  (call : Callback → Value → World → Outcome * World)
  (b : EventBus) (T : type_index) (v : Value) (w : World)
  (l1 l2 : list EventWrapper) (wrp : EventWrapper) (o : Outcome) (w2 : World) :
  bucket b T = l1 ++ wrp :: l2 →
  outcome (deliver call v l1 w) = Returned →
  call (callback wrp) v (world (deliver call v l1 w)) = (o, w2) →
  o ≠ Returned →
  EventBus_publish call b T v w =
    {| outcome := o; world := w2; invocations := invoke_all v (l1 ++ [wrp]) |}.
Proof.
  intros Hb Ho Hcall Hfail. rewrite publish_deliver, Hb, deliver_app, Ho.
  cbn [deliver]. rewrite Hcall, (deliver_returned _ _ _ _ Ho).
  unfold invoke_all. rewrite map_app. by destruct o.
Qed.

Lemma publish_stops_at_first_failure_witness :
  let b := (EventBus_subscribe 7%nat quiet
             (EventBus_subscribe 7%nat throwing
               (EventBus_subscribe 7%nat quiet new_bus).1).1).1 in
  EventBus_publish (run_callback 1) b 7%nat 42 sample_world =
    {| outcome := Threw; world := sample_world;
       invocations :=
         [{| wrapper := {| id := 1; callback := quiet |}; argument := 42 |};
          {| wrapper := {| id := 2; callback := throwing |}; argument := 42 |}] |}.
Proof.
  intros b.
  refine (publish_stops_at_first_failure (run_callback 1) b 7%nat 42
            sample_world [{| id := 1; callback := quiet |}]
            [{| id := 3; callback := quiet |}]
            {| id := 2; callback := throwing |} Threw sample_world _ _ _ _).
  - reflexivity.
  - reflexivity.
  - reflexivity.
  - discriminate.
Defined.

(** X3. Callbacks that only subscribe, release, destroy and move tokens or
    drop a bus do not stop publish: with any fuel for the callbacks the call
    returns, every wrapper of the snapshot has been called, in order, also
    the ones a callback has unsubscribed in the meantime, and the result is
    the same as with one unit of fuel. *)
Theorem publish_completes_with_registry_callbacks
  (fuel : nat) (b : EventBus) (T : type_index) (v : Value) (w : World) :
  (∀ wrp, wrp ∈ bucket b T →
          forallb registry_action (callback wrp v) = true) →
  let res := EventBus_publish (run_callback (S fuel)) b T v w in
  outcome res = Returned ∧
  invocations res = invoke_all v (bucket b T) ∧
  res = EventBus_publish (run_callback 1) b T v w.
Proof.
  intros Hreg res. subst res. rewrite !publish_deliver.
  destruct (deliver_registry fuel v (bucket b T) Hreg w) as [Hsame Hout].
  split; [done|]. split; [by apply deliver_returned|done].
Qed.

Lemma publish_completes_with_registry_callbacks_witness :
  let w1 := (run_program 1
               [ActSubscribe 0%nat 7%nat self_replacing 1%nat;
                ActSubscribe 0%nat 7%nat (λ _, [ActDestroy 1%nat]) 3%nat]
               sample_world).2 in
  let b := {| subscribers :=
                {[ 7%nat := [{| id := 1; callback := self_replacing |};
                             {| id := 2; callback := λ _, [ActDestroy 1%nat] |}] ]};
              nextId := 3 |} in
  heap w1 !! 0%nat = Some b ∧
  outcome (EventBus_publish (run_callback 5) b 7%nat 42 w1) = Returned ∧
  invocations (EventBus_publish (run_callback 5) b 7%nat 42 w1) =
    invoke_all 42 (bucket b 7%nat).
Proof.
  intros w1 b. split; [reflexivity|].
  destruct (publish_completes_with_registry_callbacks 4 b 7%nat 42 w1)
    as (Ho & Hi & _).
  - intros wrp Hin.
    apply elem_of_cons in Hin as [->|Hin]; [reflexivity|].
    apply list_elem_of_singleton in Hin as ->. reflexivity.
  - split; [exact Ho|exact Hi].
Defined.

(** ** The registry *)

Lemma bus_ext (b1 b2 : EventBus) :
  subscribers b1 = subscribers b2 → nextId b1 = nextId b2 → b1 = b2.
Proof. destruct b1, b2. simpl. by intros -> ->. Qed.

Lemma NoDup_ids_sublist (l1 l2 : list EventWrapper) :
  l1 `sublist_of` l2 → NoDup (map id l2) → NoDup (map id l1).
Proof.
  intros Hsub Hnd. eapply sublist_NoDup; [exact Hnd|].
  change (id <$> l1 `sublist_of` id <$> l2). by apply fmap_sublist.
Qed.

Lemma ids_below_new : ids_below 1 new_bus.
Proof.
  split; [|split].
  - intros T wrp Hin. by apply elem_of_nil in Hin.
  - intros T. apply NoDup_nil_2.
  - intros T1 T2 w1 w2 Hin. by apply elem_of_nil in Hin.
Qed.

Lemma ids_below_subscribe g T cb b :
  ids_below g b → nextId b = g → 1 ≤ g →
  ids_below (g + 1) (EventBus_subscribe T cb b).1.
Proof.
  intros (Hlt & Hnd & Hcross) Hg Hpos.
  assert (Hin : ∀ U wrp, wrp ∈ bucket (EventBus_subscribe T cb b).1 U →
            (wrp ∈ bucket b U) ∨ (U = T ∧ id wrp = g)).
  { intros U wrp. rewrite bucket_subscribe. case_decide as E; [|by left].
    subst U. intros [Hold|Hnew]%elem_of_app; [by left|].
    apply list_elem_of_singleton in Hnew as ->. by right. }
  split; [|split].
  - intros U wrp [Hold|[_ Hnew]]%Hin; [|lia].
    specialize (Hlt U wrp Hold). lia.
  - intros U. rewrite bucket_subscribe. case_decide as E; [|apply Hnd].
    subst U. rewrite map_app. apply NoDup_app. split; [apply Hnd|].
    split; [|apply NoDup_singleton].
    intros x Hx Hx'. apply list_elem_of_singleton in Hx'. subst x.
    apply list_elem_of_fmap in Hx as (wrp & Hid & Hold).
    specialize (Hlt T wrp Hold). simpl in Hid. lia.
  - intros T1 T2 w1 w2 [H1|[-> H1]]%Hin [H2|[-> H2]]%Hin Hid.
    + by eapply Hcross.
    + specialize (Hlt T1 w1 H1). lia.
    + specialize (Hlt T2 w2 H2). lia.
    + done.
Qed.

Lemma ids_below_unsubscribe g T hid b :
  ids_below g b → ids_below g (EventBus_unsubscribe T hid b).
Proof.
  intros (Hlt & Hnd & Hcross).
  assert (Hin : ∀ U wrp, wrp ∈ bucket (EventBus_unsubscribe T hid b) U →
            wrp ∈ bucket b U).
  { intros U wrp. rewrite bucket_unsubscribe. case_decide as E; [|done].
    subst U. by intros [_ ?]%list_elem_of_filter. }
  split; [|split].
  - intros U wrp Hw. exact (Hlt U wrp (Hin U wrp Hw)).
  - intros U. rewrite bucket_unsubscribe. case_decide as E; [|apply Hnd].
    eapply NoDup_ids_sublist; [apply sublist_filter|apply Hnd].
  - intros T1 T2 w1 w2 H1 H2. apply (Hcross T1 T2 w1 w2); by apply Hin.
Qed.

Lemma ids_below_run_ops ops :
  ∀ b g, nextId b = g mod SIZE_MOD → 1 ≤ g →
         g + Z.of_nat (subscribe_count ops) ≤ SIZE_MOD →
         ids_below g b →
         ids_below (g + Z.of_nat (subscribe_count ops)) (run_ops ops b).1.
Proof.
  induction ops as [|[T cb|T hid] ops IH]; intros b g Hnext Hg Hbound Hb.
  - change (subscribe_count []) with 0%nat. by rewrite Z.add_0_r.
  - change (subscribe_count (OpSubscribe T cb :: ops))
      with (S (subscribe_count ops)) in *.
    rewrite run_ops_subscribe. cbn [fst].
    rewrite Z.mod_small in Hnext by lia.
    replace (g + Z.of_nat (S (subscribe_count ops)))
      with ((g + 1) + Z.of_nat (subscribe_count ops)) by lia.
    apply IH; [by simpl; rewrite Hnext|lia|lia|].
    by apply ids_below_subscribe.
  - change (subscribe_count (OpUnsubscribe T hid :: ops))
      with (subscribe_count ops) in *.
    simpl run_ops. apply IH; [by rewrite nextId_unsubscribe|done|done|].
    by apply ids_below_unsubscribe.
Qed.

Lemma subscribers_unsubscribe T hid b U :
  subscribers (EventBus_unsubscribe T hid b) !! U =
    if decide (U = T)
    then subscribers b !! T ≫= (λ l, prune (filter (λ w, id w ≠ hid) l))
    else subscribers b !! U.
Proof.
  unfold EventBus_unsubscribe.
  destruct (subscribers b !! T) as [lst|] eqn:E; simpl.
  - destruct (filter _ lst) as [|x l'] eqn:F; simpl; case_decide as D; subst.
    + apply lookup_delete_eq.
    + by apply lookup_delete_ne.
    + apply lookup_insert_eq.
    + by apply lookup_insert_ne.
  - case_decide as D; by subst.
Qed.

Lemma prune_filter_bind (P : EventWrapper → Prop) `{!∀ x, Decision (P x)} l :
  prune l ≫= (λ l0, prune (filter P l0)) = prune (filter P l).
Proof. by destruct l. Qed.

Lemma filter_comm {A} (P Q : A → Prop)
  `{!∀ x, Decision (P x)} `{!∀ x, Decision (Q x)} (l : list A) :
  filter P (filter Q l) = filter Q (filter P l).
Proof.
  rewrite !list_filter_filter. apply list_filter_iff. intros x. tauto.
Qed.

Lemma unsubscribe_comm T1 h1 T2 h2 b :
  EventBus_unsubscribe T1 h1 (EventBus_unsubscribe T2 h2 b) =
  EventBus_unsubscribe T2 h2 (EventBus_unsubscribe T1 h1 b).
Proof.
  apply bus_ext; [|by rewrite !nextId_unsubscribe].
  apply map_eq. intros U. rewrite !subscribers_unsubscribe.
  repeat case_decide; subst; try congruence.
  destruct (subscribers b !! T2) as [l|]; [|done]. simpl.
  rewrite !prune_filter_bind. f_equal. apply filter_comm.
Qed.

Lemma subscribe_unsubscribe T cb b :
  no_empty_bucket b →
  (∀ wrp, wrp ∈ bucket b T → id wrp ≠ nextId b) →
  EventBus_unsubscribe T (nextId b) (EventBus_subscribe T cb b).1 =
    {| subscribers := subscribers b; nextId := (nextId b + 1) mod SIZE_MOD |}.
Proof.
  intros Hb Hfresh. apply bus_ext; [|by rewrite nextId_unsubscribe].
  apply map_eq. intros U. rewrite subscribers_unsubscribe. simpl.
  case_decide as D; [subst U|by rewrite lookup_insert_ne].
  rewrite lookup_insert_eq. simpl.
  rewrite filter_app, filter_all by done.
  rewrite filter_cons_False by (simpl; auto). rewrite filter_nil, app_nil_r.
  unfold bucket. destruct (subscribers b !! T) as [l|] eqn:E; [|done].
  simpl. destruct l; [by apply Hb in E|done].
Qed.

(** X5. With fewer than 2^64 subscribe calls on a bus, unsubscribe calls
    mixed in at will, no handler id is in the registry twice, neither
    within a bucket nor in the buckets of two types, and every id in it is
    between 1 and the number of subscribe calls. *)
Theorem registry_ids_stay_unique (ops : list BusOp) :
  Z.of_nat (subscribe_count ops) < SIZE_MOD →
  let b := (run_ops ops new_bus).1 in
  registry_ids_unique b ∧
  (∀ T wrp, wrp ∈ bucket b T → 1 ≤ id wrp ≤ Z.of_nat (subscribe_count ops)).
Proof.
  intros Hn b.
  assert (HM : 1 < SIZE_MOD) by (unfold SIZE_MOD, SIZE_BITS; lia).
  destruct (ids_below_run_ops ops new_bus 1) as [Hlt Hun].
  - simpl. symmetry. apply Z.mod_small. lia.
  - lia.
  - lia.
  - apply ids_below_new.
  - split; [done|]. intros T wrp Hin. specialize (Hlt T wrp Hin). lia.
Qed.

Lemma registry_ids_stay_unique_witness :
  registry_ids_unique
    (run_ops [OpSubscribe 7%nat quiet; OpSubscribe 8%nat quiet;
              OpUnsubscribe 7%nat 1; OpSubscribe 7%nat throwing] new_bus).1.
Proof.
  refine (proj1 (registry_ids_stay_unique
    [OpSubscribe 7%nat quiet; OpSubscribe 8%nat quiet;
     OpUnsubscribe 7%nat 1; OpSubscribe 7%nat throwing] _)).
  reflexivity.
Defined.

(** X6. When the ids of a bucket are distinct, unsubscribe takes out the
    one wrapper with the given id and keeps the others in their order; the
    buckets of the other types and the counter stay as they are. *)
Theorem unsubscribe_removes_one
  (T : type_index) (b : EventBus) (l1 l2 : list EventWrapper)
  (wrp : EventWrapper) :
  bucket b T = l1 ++ wrp :: l2 →
  NoDup (map id (bucket b T)) →
  let b' := EventBus_unsubscribe T (id wrp) b in
  bucket b' T = l1 ++ l2 ∧
  (∀ U, U ≠ T → subscribers b' !! U = subscribers b !! U) ∧
  nextId b' = nextId b.
Proof.
  intros Hb Hnd b'. subst b'. split; [|split].
  - rewrite bucket_unsubscribe, decide_True, Hb by done.
    rewrite Hb, map_app in Hnd. simpl in Hnd.
    apply NoDup_app in Hnd as (_ & Hdisj & Hnd2).
    apply NoDup_cons in Hnd2 as [Hnot2 _].
    rewrite filter_app, filter_cons_False by (simpl; auto).
    rewrite !filter_all; [done| |].
    + intros x Hx Hid. apply Hnot2. rewrite <- Hid.
      by apply list_elem_of_fmap_2.
    + intros x Hx Hid. apply (Hdisj (id x)).
      * by apply list_elem_of_fmap_2.
      * rewrite Hid. left.
  - intros U HU. by rewrite subscribers_unsubscribe, decide_False.
  - apply nextId_unsubscribe.
Qed.

Lemma unsubscribe_removes_one_witness :
  let b := (run_ops [OpSubscribe 7%nat quiet; OpSubscribe 7%nat throwing;
                     OpSubscribe 7%nat quiet] new_bus).1 in
  bucket (EventBus_unsubscribe 7%nat 2 b) 7%nat =
    [{| id := 1; callback := quiet |}; {| id := 3; callback := quiet |}].
Proof.
  intros b.
  refine (proj1 (unsubscribe_removes_one 7%nat b
    [{| id := 1; callback := quiet |}] [{| id := 3; callback := quiet |}]
    {| id := 2; callback := throwing |} eq_refl _)).
  change (NoDup [1; 2; 3]). apply (bool_decide_unpack _). reflexivity.
Defined.

(** X7. A subscribe directly followed by the unsubscribe of the id it
    handed out gives back the subscriber map as it was, for a bucket that
    was there as for one that was not; only the counter has moved on, and
    every publish does what it did before. The id must not be that of a
    wrapper already in the bucket. *)
Theorem subscribe_unsubscribe_round_trip
  (T : type_index) (cb : Callback) (b : EventBus) :
  no_empty_bucket b →
  (∀ wrp, wrp ∈ bucket b T → id wrp ≠ nextId b) →
  EventBus_unsubscribe T (EventBus_subscribe T cb b).2
                       (EventBus_subscribe T cb b).1 =
    {| subscribers := subscribers b; nextId := (nextId b + 1) mod SIZE_MOD |} ∧
  (∀ call U v w,
     EventBus_publish call
       (EventBus_unsubscribe T (EventBus_subscribe T cb b).2
                             (EventBus_subscribe T cb b).1) U v w =
     EventBus_publish call b U v w).
Proof.
  intros Hb Hfresh.
  pose proof (subscribe_unsubscribe T cb b Hb Hfresh) as Hround.
  split; [exact Hround|]. intros call U v w.
  change ((EventBus_subscribe T cb b).2) with (nextId b).
  rewrite Hround, !publish_deliver. reflexivity.
Qed.

Lemma subscribe_unsubscribe_round_trip_witness :
  let b := (EventBus_subscribe 7%nat quiet new_bus).1 in
  EventBus_unsubscribe 7%nat 2 (EventBus_subscribe 7%nat throwing b).1 =
    {| subscribers := {[ 7%nat := [{| id := 1; callback := quiet |}] ]};
       nextId := 3 |}.
Proof.
  intros b.
  refine (proj1 (subscribe_unsubscribe_round_trip 7%nat throwing b _ _)).
  - apply no_empty_bucket_subscribe, no_empty_bucket_new.
  - intros wrp Hin. apply list_elem_of_singleton in Hin as ->. discriminate.
Defined.



(** ** Tokens and their owners *)

Lemma world_ext (w1 w2 : World) :
  heap w1 = heap w2 → tokens w1 = tokens w2 → w1 = w2.
Proof. destruct w1, w2. simpl. by intros -> ->. Qed.

Lemma tokens_destroy_token s w :
  tokens (destroy_token s w) = delete s (tokens w).
Proof.
  unfold destroy_token. destruct (tokens w !! s) eqn:E; [done|].
  by rewrite delete_id.
Qed.

Lemma heap_destroy_token_cases s w :
  heap (destroy_token s w) =
    match tokens w !! s with
    | Some tok => (Subscription_unsubscribe (heap w) tok).1
    | None => heap w
    end.
Proof. unfold destroy_token. by destruct (tokens w !! s). Qed.

Lemma unsubscribe_heap_comm h s1 s2 :
  (Subscription_unsubscribe (Subscription_unsubscribe h s1).1 s2).1 =
  (Subscription_unsubscribe (Subscription_unsubscribe h s2).1 s1).1.
Proof.
  apply map_eq. intros r. rewrite !unsubscribe_heap_lookup.
  repeat case_decide; try done.
  destruct (h !! r) as [b|]; [|done]. simpl. f_equal. apply unsubscribe_comm.
Qed.

(** X8. The order of two unsubscribe calls does not matter, whatever their
    types and ids, and neither does the order in which two tokens are
    released. *)
Theorem unsubscribe_order_irrelevant
  (T1 T2 : type_index) (h1 h2 : HandlerId) (b : EventBus)
  (h : gmap BusRef EventBus) (s1 s2 : Subscription) :
  EventBus_unsubscribe T1 h1 (EventBus_unsubscribe T2 h2 b) =
  EventBus_unsubscribe T2 h2 (EventBus_unsubscribe T1 h1 b) ∧
  (Subscription_unsubscribe (Subscription_unsubscribe h s1).1 s2).1 =
  (Subscription_unsubscribe (Subscription_unsubscribe h s2).1 s1).1.
Proof.
  split.
  - apply unsubscribe_comm.
  - apply unsubscribe_heap_comm.
Qed.

Lemma destroy_token_comm s1 s2 w :
  destroy_token s1 (destroy_token s2 w) = destroy_token s2 (destroy_token s1 w).
Proof.
  destruct (decide (s1 = s2)) as [->|Hne]; [done|].
  apply world_ext.
  - rewrite !heap_destroy_token_cases, !tokens_destroy_token.
    rewrite !lookup_delete_ne by done.
    destruct (tokens w !! s1) as [t1|], (tokens w !! s2) as [t2|]; try done.
    apply unsubscribe_heap_comm.
  - rewrite !tokens_destroy_token. apply delete_delete.
Qed.

Lemma heap_dom_unsubscribe h s r :
  is_Some ((Subscription_unsubscribe h s).1 !! r) ↔ is_Some (h !! r).
Proof.
  rewrite unsubscribe_heap_lookup. case_decide; [|done].
  by rewrite fmap_is_Some.
Qed.

Lemma no_wrapper_unsubscribe r T hid h s :
  no_wrapper r T hid h → no_wrapper r T hid (Subscription_unsubscribe h s).1.
Proof.
  intros Hno b wrp. rewrite unsubscribe_heap_lookup.
  case_decide as D; [|apply Hno].
  destruct (h !! r) as [b0|] eqn:E; [|done]. intros [= <-].
  rewrite bucket_unsubscribe. case_decide as ET.
  - subst T. intros [_ Hin]%list_elem_of_filter. by eapply Hno.
  - by eapply Hno.
Qed.

Lemma no_wrapper_released r h tok :
  Active tok → weakBus tok = Some r →
  no_wrapper r (eventType tok) (handlerId tok) (Subscription_unsubscribe h tok).1.
Proof.
  intros Hact Hweak b wrp.
  rewrite unsubscribe_heap_lookup, decide_True by done.
  destruct (h !! r) as [b0|]; [|done]. intros [= <-].
  apply unsubscribe_removes.
Qed.

Lemma no_wrapper_destroy_token r T hid s w :
  no_wrapper r T hid (heap w) → no_wrapper r T hid (heap (destroy_token s w)).
Proof.
  rewrite heap_destroy_token_cases. destruct (tokens w !! s); [|done].
  apply no_wrapper_unsubscribe.
Qed.

Lemma no_wrapper_destroy_tokens r T hid slots :
  ∀ w, no_wrapper r T hid (heap w) →
       no_wrapper r T hid (heap (destroy_tokens slots w)).
Proof.
  induction slots as [|s slots IH]; intros w Hno; [done|].
  simpl. by apply IH, no_wrapper_destroy_token.
Qed.

Lemma tokens_destroy_tokens slots :
  ∀ w s, tokens (destroy_tokens slots w) !! s =
         if decide (s ∈ slots) then None else tokens w !! s.
Proof.
  induction slots as [|s0 slots IH]; intros w s.
  - case_decide as D; [by apply elem_of_nil in D|done].
  - cbn [destroy_tokens]. rewrite IH, tokens_destroy_token.
    destruct (decide (s ∈ slots)) as [Hin|Hout].
    + rewrite decide_True; [done|]. by right.
    + destruct (decide (s = s0)) as [->|Hne].
      * rewrite lookup_delete_eq, decide_True; [done|left].
      * rewrite lookup_delete_ne by done.
        rewrite decide_False; [done|].
        intros [?|?]%elem_of_cons; done.
Qed.

Lemma heap_dom_destroy_tokens slots :
  ∀ w r, is_Some (heap (destroy_tokens slots w) !! r) ↔ is_Some (heap w !! r).
Proof.
  induction slots as [|s0 slots IH]; intros w r; [done|].
  simpl. rewrite IH, heap_destroy_token_cases.
  destruct (tokens w !! s0); [apply heap_dom_unsubscribe|done].
Qed.

Lemma world_ok_destroy_tokens slots :
  ∀ w, world_ok w → world_ok (destroy_tokens slots w).
Proof.
  induction slots as [|s0 slots IH]; intros w Hw; [done|].
  simpl. by apply IH, world_ok_destroy.
Qed.

Lemma released_destroy_tokens slots :
  ∀ w s tok r,
    s ∈ slots → tokens w !! s = Some tok → Active tok → weakBus tok = Some r →
    no_wrapper r (eventType tok) (handlerId tok)
               (heap (destroy_tokens slots w)).
Proof.
  induction slots as [|s0 slots IH]; intros w s tok r Hin Hs Hact Hweak.
  { by apply elem_of_nil in Hin. }
  simpl. destruct (decide (s = s0)) as [->|Hne].
  - apply no_wrapper_destroy_tokens.
    rewrite heap_destroy_token_cases, Hs. by apply no_wrapper_released.
  - apply elem_of_cons in Hin as [?|Hin]; [done|].
    apply (IH _ s); try done.
    by rewrite tokens_destroy_token, lookup_delete_ne.
Qed.

(** X9. The destructor of a vector of tokens, as [UIElement] and
    [EventLogger] hold one: afterwards none of its token variables exists,
    the other token variables are as they were, no bus has come or gone,
    and for every active token of the vector whose bus is alive no wrapper
    with its id is left in the bucket of its type. No bucket is left
    empty. *)
Theorem destroy_tokens_releases_all (slots : list Slot) (w : World) :
  let w' := destroy_tokens slots w in
  (∀ s, s ∈ slots → tokens w' !! s = None) ∧
  (∀ s, s ∉ slots → tokens w' !! s = tokens w !! s) ∧
  (∀ r, is_Some (heap w' !! r) ↔ is_Some (heap w !! r)) ∧
  (∀ s tok r b wrp,
     s ∈ slots → tokens w !! s = Some tok →
     Active tok → weakBus tok = Some r →
     heap w' !! r = Some b → wrp ∈ bucket b (eventType tok) →
     id wrp ≠ handlerId tok) ∧
  (world_ok w → world_ok w').
Proof.
  intros w'. subst w'. split; [|split; [|split; [|split]]].
  - intros s Hin. by rewrite tokens_destroy_tokens, decide_True.
  - intros s Hout. by rewrite tokens_destroy_tokens, decide_False.
  - apply heap_dom_destroy_tokens.
  - intros s tok r b wrp Hin Hs Hact Hweak.
    by apply (released_destroy_tokens slots w s tok r).
  - apply world_ok_destroy_tokens.
Qed.

(** X10. The order in which the tokens of a vector are destroyed does not
    matter: two orders of the same token variables leave the same world. *)
Theorem destroy_tokens_order_irrelevant (slots slots' : list Slot) :
  slots ≡ₚ slots' →
  ∀ w, destroy_tokens slots w = destroy_tokens slots' w.
Proof.
  induction 1 as [|s l l' _ IH|s1 s2 l|l1 l2 l3 _ IH1 _ IH2]; intros w.
  - done.
  - simpl. apply IH.
  - simpl. by rewrite destroy_token_comm.
  - by rewrite IH1.
Qed.

Lemma destroy_tokens_order_irrelevant_witness :
  let w := (run_program 1 [ActSubscribe 0%nat 7%nat quiet 1%nat;
                           ActSubscribe 0%nat 7%nat throwing 2%nat;
                           ActSubscribe 0%nat 8%nat quiet 3%nat]
              sample_world).2 in
  destroy_tokens [3%nat; 1%nat; 2%nat] w =
    {| heap := {[ 0%nat := {| subscribers := ∅; nextId := 4 |} ]};
       tokens := ∅ |}.
Proof.
  intros w.
  rewrite (destroy_tokens_order_irrelevant [3%nat; 1%nat; 2%nat]
             [1%nat; 2%nat; 3%nat]).
  - reflexivity.
  - apply Permutation_cons_append.
Defined.

(** ** Every wrapper has its token *)

Lemma owned_by_mono (P Q : Subscription → Prop) h :
  (∀ t, P t → Q t) → owned_by P h → owned_by Q h.
Proof. intros HPQ Hh r b T wrp Hr Hin Hid. by eapply HPQ, Hh. Qed.

Lemma owned_by_delete (P : Subscription → Prop) h r :
  owned_by P h → owned_by P (delete r h).
Proof.
  intros Hh r' b T wrp. rewrite lookup_delete.
  case_decide; [done|apply Hh].
Qed.

(** A release takes away the wrappers of the released token, and of no
    other token. *)
Lemma owned_by_unsubscribe (P Q : Subscription → Prop) h tok :
  (∀ t, P t → t = tok ∨ Q t) →
  owned_by P h → owned_by Q (Subscription_unsubscribe h tok).1.
Proof.
  intros HPQ Hh r b T wrp. rewrite unsubscribe_heap_lookup.
  case_decide as D.
  - destruct D as [Hact Hweak].
    destruct (h !! r) as [b0|] eqn:E; [|done]. intros [= <-].
    rewrite bucket_unsubscribe. intros Hin Hid.
    assert (Hold : wrp ∈ bucket b0 T ∧
                   ¬ (T = eventType tok ∧ id wrp = handlerId tok)).
    { case_decide as ET.
      - subst T. apply list_elem_of_filter in Hin as [Hne Hin].
        split; [done|]. by intros [_ ?].
      - split; [done|]. by intros [? _]. }
    destruct Hold as [Hold Hother].
    destruct (HPQ _ (Hh r b0 T wrp E Hold Hid)) as [Heq|HQ]; [|done].
    exfalso. apply Hother. rewrite <- Heq. done.
  - intros Hr Hin Hid.
    destruct (HPQ _ (Hh r b T wrp Hr Hin Hid)) as [Heq|HQ]; [|done].
    exfalso. apply D. rewrite <- Heq. done.
Qed.

Lemma owned_by_subscribe (P : Subscription → Prop) h r b T cb :
  h !! r = Some b →
  owned_by P h →
  owned_by (λ t, P t ∨
              t = {| weakBus := Some r; eventType := T; handlerId := nextId b |})
           (<[r := (EventBus_subscribe T cb b).1]> h).
Proof.
  intros Hb Hh r' b' T' wrp. rewrite lookup_insert.
  case_decide as D.
  - subst r'. intros Heq. apply (inj Some) in Heq. subst b'.
    rewrite bucket_subscribe. case_decide as ET.
    + subst T'. intros [Hold|Hnew]%elem_of_app Hid.
      * left. by eapply Hh.
      * apply list_elem_of_singleton in Hnew as ->. by right.
    + intros Hin Hid. left. by eapply Hh.
  - intros Hr Hin Hid. left. by eapply Hh.
Qed.

Lemma owned_release s w : owned w → owned (release_token s w).
Proof.
  unfold owned, release_token. intros Hw.
  destruct (tokens w !! s) as [tok|] eqn:E; [|done].
  pose proof (λ Q HPQ, owned_by_unsubscribe _ Q (heap w) tok HPQ Hw) as Hu.
  destruct (Subscription_unsubscribe (heap w) tok) as [h' tok']. simpl in *.
  apply Hu. intros t [s0 Hs0].
  destruct (decide (s0 = s)) as [->|Hne].
  - left. congruence.
  - right. exists s0. by rewrite lookup_insert_ne.
Qed.

Lemma owned_destroy s w : owned w → owned (destroy_token s w).
Proof.
  unfold owned, destroy_token. intros Hw.
  destruct (tokens w !! s) as [tok|] eqn:E; [|done]. simpl.
  eapply owned_by_unsubscribe; [|exact Hw]. intros t [s0 Hs0].
  destruct (decide (s0 = s)) as [->|Hne].
  - left. congruence.
  - right. exists s0. by rewrite lookup_delete_ne.
Qed.

Lemma owned_move dst src w : owned w → owned (move_token dst src w).
Proof.
  unfold owned, move_token. intros Hw.
  destruct (tokens w !! src) as [other|] eqn:Es; [|done].
  destruct (tokens w !! dst) as [this|] eqn:Ed.
  - case_decide as D; [done|].
    unfold Subscription_move_assign.
    pose proof (λ Q HPQ, owned_by_unsubscribe _ Q (heap w) this HPQ Hw) as Hu.
    destruct (Subscription_unsubscribe (heap w) this) as [h' this'].
    rewrite moveFrom_result. simpl in *.
    apply Hu. intros t [s0 Hs0].
    destruct (decide (s0 = dst)) as [->|Hnd]; [left; congruence|].
    right. destruct (decide (s0 = src)) as [->|Hns].
    + exists dst. rewrite lookup_insert_eq. congruence.
    + exists s0. by rewrite !lookup_insert_ne.
  - unfold Subscription_move_construct. rewrite moveFrom_result. simpl.
    eapply owned_by_mono; [|exact Hw]. intros t [s0 Hs0].
    destruct (decide (s0 = src)) as [->|Hns].
    + exists dst. rewrite lookup_insert_eq. congruence.
    + exists s0. rewrite !lookup_insert_ne; [done|done|]. congruence.
Qed.

Lemma owned_subscribe r T cb dst w :
  owned w → owned (subscribe_token r T cb dst w).
Proof.
  unfold owned, subscribe_token. intros Hw.
  destruct (heap w !! r) as [b|] eqn:Er; [|done].
  pose proof (owned_by_subscribe _ (heap w) r b T cb Er Hw) as Hsub.
  simpl in Hsub. cbn [EventBus_subscribe].
  destruct (tokens w !! dst) as [this|] eqn:Ed.
  - unfold Subscription_move_assign, Subscription_destroy.
    pose proof (λ Q HPQ, owned_by_unsubscribe _ Q _ this HPQ Hsub) as Hu.
    destruct (Subscription_unsubscribe _ this) as [h2 this'].
    rewrite moveFrom_result. simpl in *.
    apply Hu. intros t [[s0 Hs0]| ->].
    + destruct (decide (s0 = dst)) as [->|Hnd]; [left; congruence|].
      right. exists s0. by rewrite lookup_insert_ne.
    + right. exists dst. by rewrite lookup_insert_eq.
  - simpl. eapply owned_by_mono; [|exact Hsub].
    intros t [[s0 Hs0]| ->].
    + exists s0. rewrite lookup_insert_ne; [done|]. congruence.
    + exists dst. by rewrite lookup_insert_eq.
Qed.

Section ClientOwnership.

Variable call : Callback → Value → World → Outcome * World.
Hypothesis call_owned : ∀ cb v w, owned w → owned (call cb v w).2.

Lemma owned_deliver v l : ∀ w, owned w → owned (world (deliver call v l w)).
Proof.
  induction l as [|a l IH]; intros w Hw; [done|]. simpl.
  pose proof (call_owned (callback a) v w Hw) as Hc.
  destruct (call (callback a) v w) as [o w']. simpl in Hc.
  destruct o; simpl; [by apply IH|done|done].
Qed.

Lemma owned_exec_action a w : owned w → owned (exec_action call a w).2.
Proof.
  intros Hw. destruct a; simpl.
  - by apply owned_subscribe.
  - unfold publish_at. destruct (heap w !! bus) as [b|]; [|done].
    rewrite publish_deliver. by apply owned_deliver.
  - by apply owned_release.
  - by apply owned_destroy.
  - by apply owned_move.
  - by apply owned_by_delete.
  - done.
Qed.

Lemma owned_exec_actions acts :
  ∀ w, owned w → owned (exec_actions call acts w).2.
Proof.
  induction acts as [|a acts IH]; intros w Hw; [done|]. simpl.
  pose proof (owned_exec_action a w Hw) as Ha.
  destruct (exec_action call a w) as [o w']. simpl in Ha.
  destruct o; [by apply IH|done|done].
Qed.

End ClientOwnership.

Lemma owned_run_callback fuel :
  ∀ cb v w, owned w → owned (run_callback fuel cb v w).2.
Proof.
  induction fuel as [|fuel IH]; intros cb v w Hw; [done|].
  simpl. by apply owned_exec_actions.
Qed.

Lemma owned_sample : owned sample_world.
Proof.
  intros r b T wrp Hr. unfold sample_world in Hr. simpl in Hr.
  apply lookup_singleton_Some in Hr as [_ <-].
  intros Hin. by apply elem_of_nil in Hin.
Qed.

(** X11. No subscription is left without its token: in a client that
    starts with a token variable for every wrapper, whatever it does and
    however long it runs, every wrapper of a live bus with a handler id
    other than 0 is the one of a token variable that holds exactly its bus,
    its type and its id. *)
Theorem wrappers_stay_owned (fuel : nat) (prog : list Action) (w : World) :
  owned w →
  ∀ r b T wrp,
    heap (run_program fuel prog w).2 !! r = Some b →
    wrp ∈ bucket b T → id wrp ≠ 0 →
    ∃ s, tokens (run_program fuel prog w).2 !! s =
           Some {| weakBus := Some r; eventType := T; handlerId := id wrp |}.
Proof.
  intros Hw.
  exact (owned_exec_actions (run_callback fuel) (owned_run_callback fuel)
           prog w Hw).
Qed.

Lemma wrappers_stay_owned_witness :
  let prog := [ActSubscribe 0%nat 7%nat self_replacing 1%nat;
               ActSubscribe 0%nat 8%nat quiet 3%nat;
               ActPublish 0%nat 7%nat 42; ActMove 4%nat 3%nat] in
  owned sample_world ∧
  ∃ s, tokens (run_program 3 prog sample_world).2 !! s =
         Some {| weakBus := Some 0%nat; eventType := 8%nat; handlerId := 2 |}.
Proof.
  intros prog. split; [exact owned_sample|].
  refine (wrappers_stay_owned 3 prog sample_world owned_sample 0%nat
    {| subscribers := {[ 7%nat := [{| id := 3; callback := quiet |}];
                         8%nat := [{| id := 2; callback := quiet |}] ]};
       nextId := 4 |} 8%nat {| id := 2; callback := quiet |} _ _ _).
  - reflexivity.
  - left.
  - discriminate.
Defined.

(** ** Scopes and moves *)

Lemma release_active_live h tok r b :
  Active tok → weakBus tok = Some r → h !! r = Some b →
  Subscription_unsubscribe h tok =
    (<[r := EventBus_unsubscribe (eventType tok) (handlerId tok) b]> h,
     {| weakBus := None; eventType := eventType tok; handlerId := 0 |}).
Proof.
  intros Hact Hweak Hr. rewrite unsubscribe_active by done.
  unfold lock. by rewrite Hweak, Hr.
Qed.

(** X12. A token that is taken from subscribe into a new variable and
    destroyed again, as at the end of a scope, leaves the world as it was
    but for the counter of the bus. The handler id must not be 0, the
    sentinel, with which the destructor would do nothing, nor the id of a
    wrapper already in the bucket. *)
Theorem subscribe_then_destroy_token
  (r : BusRef) (T : type_index) (cb : Callback) (dst : Slot)
  (w : World) (b : EventBus) :
  heap w !! r = Some b →
  tokens w !! dst = None →
  no_empty_bucket b →
  nextId b ≠ 0 →
  (∀ wrp, wrp ∈ bucket b T → id wrp ≠ nextId b) →
  destroy_token dst (subscribe_token r T cb dst w) =
    {| heap := <[r := {| subscribers := subscribers b;
                         nextId := (nextId b + 1) mod SIZE_MOD |}]> (heap w);
       tokens := tokens w |}.
Proof.
  intros Hr Hdst Hb Hid Hfresh.
  pose proof (subscribe_unsubscribe T cb b Hb Hfresh) as Hround.
  unfold subscribe_token. rewrite Hr, Hdst. cbn [EventBus_subscribe].
  unfold destroy_token. cbn [tokens heap]. rewrite lookup_insert_eq.
  unfold Subscription_destroy.
  erewrite release_active_live; [|exact Hid|reflexivity|apply lookup_insert_eq].
  cbn [fst eventType handlerId]. apply world_ext; cbn [heap tokens].
  - rewrite insert_insert_eq. f_equal. exact Hround.
  - rewrite delete_insert_eq. by apply delete_id.
Qed.

Lemma subscribe_then_destroy_token_witness :
  destroy_token 1%nat (subscribe_token 0%nat 7%nat quiet 1%nat sample_world) =
    {| heap := {[ 0%nat := {| subscribers := ∅; nextId := 2 |} ]};
       tokens := ∅ |}.
Proof.
  rewrite (subscribe_then_destroy_token 0%nat 7%nat quiet 1%nat sample_world
             new_bus).
  - reflexivity.
  - reflexivity.
  - reflexivity.
  - apply no_empty_bucket_new.
  - discriminate.
  - intros wrp Hin. by apply elem_of_nil in Hin.
Defined.

(** X13. A move changes nothing about what is released in the end: moving
    a token and then destroying source and destination leaves the world
    that destroying the two variables without the move leaves. This holds
    for a destination that does not exist yet, for one that holds a
    subscription of its own, and for the source itself. *)
Theorem move_then_destroy_both
  (dst src : Slot) (w : World) (other : Subscription) :
  tokens w !! src = Some other →
  destroy_token dst (destroy_token src (move_token dst src w)) =
  destroy_token src (destroy_token dst w).
Proof.
  intros Hsrc. destruct (decide (dst = src)) as [->|Hne].
  { unfold move_token. rewrite Hsrc. by rewrite decide_True. }
  assert (Hgone : ∀ h T, Subscription_unsubscribe h
            {| weakBus := None; eventType := T; handlerId := 0 |} =
            (h, {| weakBus := None; eventType := T; handlerId := 0 |}))
    by (intros h T; by apply unsubscribe_released).
  apply world_ext.
  - rewrite !heap_destroy_token_cases, !tokens_destroy_token.
    rewrite !lookup_delete_ne by done. rewrite Hsrc.
    unfold move_token. rewrite Hsrc.
    destruct (tokens w !! dst) as [this|] eqn:Ed.
    + rewrite decide_False by done. unfold Subscription_move_assign.
      destruct (Subscription_unsubscribe (heap w) this) as [h' this'] eqn:U.
      rewrite moveFrom_result. cbn [heap tokens].
      rewrite lookup_insert_eq, lookup_insert_ne, lookup_insert_eq by done.
      by rewrite Hgone.
    + unfold Subscription_move_construct. rewrite moveFrom_result.
      cbn [heap tokens].
      rewrite lookup_insert_eq, lookup_insert_ne, lookup_insert_eq by done.
      by rewrite Hgone.
  - rewrite !tokens_destroy_token.
    assert (Htok : ∃ this' other',
              tokens (move_token dst src w) =
              <[dst := this']> (<[src := other']> (tokens w))).
    { unfold move_token. rewrite Hsrc.
      destruct (tokens w !! dst) as [this|].
      - rewrite decide_False by done.
        destruct (Subscription_move_assign (heap w) this other)
          as [[h' this'] other']. by eexists _, _.
      - destruct (Subscription_move_construct other) as [this' other'].
        by eexists _, _. }
    destruct Htok as (this' & other' & ->).
    rewrite (delete_insert_ne _ src dst) by done.
    rewrite delete_insert_eq, delete_insert_eq. apply delete_delete.
Qed.

Lemma move_then_destroy_both_witness :
  let w := (run_program 1 [ActSubscribe 0%nat 7%nat quiet 1%nat;
                           ActSubscribe 0%nat 8%nat quiet 2%nat]
              sample_world).2 in
  destroy_token 1%nat (destroy_token 2%nat (move_token 1%nat 2%nat w)) =
    {| heap := {[ 0%nat := {| subscribers := ∅; nextId := 3 |} ]};
       tokens := ∅ |}.
Proof.
  intros w.
  rewrite (move_then_destroy_both 1%nat 2%nat w
      {| weakBus := Some 0%nat; eventType := 8%nat; handlerId := 2 |}).
  - reflexivity.
  - reflexivity.
Defined.

(** ** The loops of the UI manager *)

Lemma draw_loop_update_loop draw_impl els :
  ∀ st, draw_loop draw_impl els st =
        update_loop unit (λ e _, draw_impl e) tt els st.
Proof.
  induction els as [|e els IH]; intros st; [done|]. simpl.
  destruct (st !! e) as [el|]; [|apply IH].
  destruct (isActive el); [|apply IH]. by rewrite IH.
Qed.

Section UIManagerFacts.

Variable Dt : Type.
Variable update_impl : ElemRef → Dt → gmap ElemRef UIElement → gmap ElemRef UIElement.
Variable dt : Dt.

Lemma update_loop_head e els st :
  update_loop Dt update_impl dt (e :: els) st =
    if decide (active_in st e)
    then ((update_loop Dt update_impl dt els (update_impl e dt st)).1,
          e :: (update_loop Dt update_impl dt els (update_impl e dt st)).2)
    else update_loop Dt update_impl dt els st.
Proof.
  cbn [update_loop]. destruct (decide (active_in st e)) as [D|D];
    unfold active_in in D; destruct (st !! e) as [el|]; simpl in D.
  - destruct (isActive el); [|by inversion D].
    by destruct (update_loop Dt update_impl dt els (update_impl e dt st)).
  - done.
  - destruct (isActive el); [by destruct D|done].
  - done.
Qed.

Lemma update_loop_exact els :
  (∀ e st0 e', active_in (update_impl e dt st0) e' ↔ active_in st0 e') →
  ∀ st, (update_loop Dt update_impl dt els st).2 = filter (active_in st) els.
Proof.
  intros Hkeep. induction els as [|e els IH]; intros st; [done|].
  rewrite update_loop_head. case_decide as D.
  - rewrite filter_cons_True by done. simpl. f_equal. rewrite IH.
    apply list_filter_iff. intros e'. apply Hkeep.
  - by rewrite filter_cons_False.
Qed.

Lemma update_loop_skips els e :
  (∀ e0 st0, ¬ active_in st0 e → ¬ active_in (update_impl e0 dt st0) e) →
  ∀ st, ¬ active_in st e → e ∉ (update_loop Dt update_impl dt els st).2.
Proof.
  intros Hoff. induction els as [|e1 els IH]; intros st Hst.
  - apply not_elem_of_nil.
  - rewrite update_loop_head. case_decide as D; [|by apply IH].
    simpl. apply not_elem_of_cons. split; [by intros ->|].
    by apply IH, Hoff.
Qed.

Lemma update_loop_sublist els :
  ∀ st, (update_loop Dt update_impl dt els st).2 `sublist_of` els.
Proof.
  induction els as [|e els IH]; intros st; [done|].
  rewrite update_loop_head. case_decide.
  - simpl. apply sublist_skip, IH.
  - apply sublist_cons, IH.
Qed.

Lemma update_loop_app els1 els2 :
  (∀ e st0 e', active_in (update_impl e dt st0) e' ↔ active_in st0 e') →
  ∀ st, (update_loop Dt update_impl dt (els1 ++ els2) st).2 =
        (update_loop Dt update_impl dt els1 st).2 ++ filter (active_in st) els2.
Proof.
  intros Hkeep st. rewrite !update_loop_exact by done. apply filter_app.
Qed.

End UIManagerFacts.

(** X14. When the [update] and [draw] of the elements leave the activity
    flags alone, [UIManager::update] and [UIManager::draw] call exactly the
    elements that are active, each once per occurrence in the manager, in
    the order in which they were added; an element added with [add] comes
    after all the earlier ones. *)
Theorem manager_visits_active_elements
  (Dt : Type)
  (update_impl : ElemRef → Dt → gmap ElemRef UIElement → gmap ElemRef UIElement)
  (draw_impl : ElemRef → gmap ElemRef UIElement → gmap ElemRef UIElement)
  (dt : Dt) (m : UIManager) (st : gmap ElemRef UIElement) (el : ElemRef) :
  (∀ e st0 e', active_in (update_impl e dt st0) e' ↔ active_in st0 e') →
  (∀ e st0 e', active_in (draw_impl e st0) e' ↔ active_in st0 e') →
  (UIManager_update Dt update_impl dt m st).2 = filter (active_in st) (elements m) ∧
  (UIManager_draw draw_impl m st).2 = filter (active_in st) (elements m) ∧
  (UIManager_update Dt update_impl dt (UIManager_add el m) st).2 =
    (UIManager_update Dt update_impl dt m st).2 ++
    (if decide (active_in st el) then [el] else []).
Proof.
  intros Hu Hd. unfold UIManager_update, UIManager_draw, UIManager_add.
  cbn [elements]. split; [|split].
  - by apply update_loop_exact.
  - rewrite draw_loop_update_loop. by apply update_loop_exact.
  - rewrite update_loop_app by done. reflexivity.
Qed.

Lemma manager_visits_active_elements_witness :
  let st : gmap ElemRef UIElement :=
    {[ 1%nat := UIElement_new; 2%nat := setActive false UIElement_new;
       3%nat := UIElement_new ]} in
  let m := UIManager_add 3%nat (UIManager_add 2%nat
             (UIManager_add 1%nat {| elements := [] |})) in
  (UIManager_update unit (λ _ _ st0, st0) tt m st).2 = [1%nat; 3%nat] ∧
  (UIManager_draw (λ _ st0, st0) m st).2 = [1%nat; 3%nat].
Proof.
  intros st m.
  destruct (manager_visits_active_elements unit (λ _ _ st0, st0)
              (λ _ st0, st0) tt m st 0%nat) as (Hu & Hd & _).
  - done.
  - done.
  - split; [rewrite Hu|rewrite Hd]; reflexivity.
Defined.

(** X15. An element that is not active, and that no [update] or [draw] of
    an element activates, is neither updated nor drawn; whatever the
    elements do, the calls go to elements of the manager, in the order of
    the manager. *)
Theorem inactive_element_skipped
  (Dt : Type)
  (update_impl : ElemRef → Dt → gmap ElemRef UIElement → gmap ElemRef UIElement)
  (draw_impl : ElemRef → gmap ElemRef UIElement → gmap ElemRef UIElement)
  (dt : Dt) (m : UIManager) (st : gmap ElemRef UIElement) (e : ElemRef) :
  ¬ active_in st e →
  (∀ e0 st0, ¬ active_in st0 e → ¬ active_in (update_impl e0 dt st0) e) →
  (∀ e0 st0, ¬ active_in st0 e → ¬ active_in (draw_impl e0 st0) e) →
  (e ∉ (UIManager_update Dt update_impl dt m st).2) ∧
  (e ∉ (UIManager_draw draw_impl m st).2) ∧
  ((UIManager_update Dt update_impl dt m st).2 `sublist_of` elements m) ∧
  ((UIManager_draw draw_impl m st).2 `sublist_of` elements m).
Proof.
  intros Hst Hu Hd. unfold UIManager_update, UIManager_draw.
  rewrite !draw_loop_update_loop.
  split; [by apply update_loop_skips|].
  split; [by apply update_loop_skips|].
  split; apply update_loop_sublist.
Qed.

Lemma inactive_element_skipped_witness :
  let st : gmap ElemRef UIElement :=
    {[ 1%nat := UIElement_new; 2%nat := setActive false UIElement_new ]} in
  let m := {| elements := [1%nat; 2%nat; 1%nat] |} in
  let hide1 : ElemRef → unit → gmap ElemRef UIElement → gmap ElemRef UIElement :=
    λ _ _ st0, <[1%nat := setActive false UIElement_new]> st0 in
  (2%nat ∉ (UIManager_update unit hide1 tt m st).2) ∧
  (UIManager_update unit hide1 tt m st).2 = [1%nat].
Proof.
  intros st m hide1.
  destruct (inactive_element_skipped unit hide1 (λ _ st0, st0) tt m st 2%nat)
    as (H2 & _).
  - unfold active_in. vm_compute. discriminate.
  - intros e0 st0 Hoff. unfold active_in, hide1 in *.
    by rewrite lookup_insert_ne.
  - done.
  - split; [exact H2|reflexivity].
Defined.

(** ** Reentrant publish and the frame of a release *)

(** X16. publish has no guard against recursion: when the first listener
    of a type publishes the event it is given again, for the same type on
    the same bus, the publish call never returns. With any amount of fuel
    the run ends out of fuel, in the world it started in, after one call of
    that listener on each level and none of a listener behind it. *)
Theorem republishing_listener_recurses
  (r : BusRef) (T : type_index) (b : EventBus) (hid : HandlerId)
  (rest : list EventWrapper) (w : World) :
  heap w !! r = Some b →
  subscribers b !! T =
    Some ({| id := hid; callback := republishing r T |} :: rest) →
  ∀ fuel v,
    publish_at (run_callback fuel) r T v w =
      {| outcome := OutOfFuel; world := w;
         invocations :=
           [{| wrapper := {| id := hid; callback := republishing r T |};
               argument := v |}] |}.
Proof.
  intros Hr Hb. induction fuel as [|fuel IH]; intros v.
  - unfold publish_at, EventBus_publish. rewrite Hr, Hb. reflexivity.
  - unfold publish_at, EventBus_publish. rewrite Hr, Hb. cbn [deliver callback].
    change (run_callback (S fuel) (republishing r T) v w)
      with (exec_actions (run_callback fuel) [ActPublish r T v] w).
    cbn [exec_actions exec_action]. rewrite IH. reflexivity.
Qed.

Lemma republishing_listener_recurses_witness :
  let w := (run_program 1
              [ActSubscribe 0%nat 7%nat (republishing 0%nat 7%nat) 1%nat;
               ActSubscribe 0%nat 7%nat quiet 2%nat] sample_world).2 in
  outcome (publish_at (run_callback 1000) 0%nat 7%nat 42 w) = OutOfFuel.
Proof.
  intros w.
  assert (Hrun : publish_at (run_callback 1000) 0%nat 7%nat 42 w =
            {| outcome := OutOfFuel; world := w;
               invocations :=
                 [{| wrapper := {| id := 1; callback := republishing 0%nat 7%nat |};
                     argument := 42 |}] |}).
  { apply (republishing_listener_recurses 0%nat 7%nat
      {| subscribers :=
           {[ 7%nat := [{| id := 1; callback := republishing 0%nat 7%nat |};
                        {| id := 2; callback := quiet |}] ]};
         nextId := 3 |} 1
      [{| id := 2; callback := quiet |}] w).
    - reflexivity.
    - reflexivity. }
  rewrite Hrun. reflexivity.
Defined.

(** X17. A release touches one bucket only. Every bus that was alive
    stays alive and keeps its counter, every bucket other than the one of
    the token's type on the token's bus stays as it was, and in that bucket
    every wrapper with another id stays. *)
Theorem release_frame
  (h : gmap BusRef EventBus) (tok : Subscription) (r : BusRef) (b : EventBus) :
  h !! r = Some b →
  ∃ b', (Subscription_unsubscribe h tok).1 !! r = Some b' ∧
        nextId b' = nextId b ∧
        (∀ T, weakBus tok ≠ Some r ∨ eventType tok ≠ T →
              subscribers b' !! T = subscribers b !! T) ∧
        (∀ T wrp, wrp ∈ bucket b T → id wrp ≠ handlerId tok →
                  wrp ∈ bucket b' T).
Proof.
  intros Hr. rewrite unsubscribe_heap_lookup, Hr.
  case_decide as D.
  - destruct D as [Hact Hweak]. eexists. split; [reflexivity|].
    split; [apply nextId_unsubscribe|]. split.
    + intros T [Hw|HT]; [done|].
      rewrite subscribers_unsubscribe. by rewrite decide_False.
    + intros T wrp Hin Hid. rewrite bucket_unsubscribe.
      case_decide as E; [|done]. subst T. by apply list_elem_of_filter.
  - exists b. done.
Qed.

Lemma release_frame_witness :
  let b := (run_ops [OpSubscribe 7%nat quiet; OpSubscribe 7%nat throwing;
                     OpSubscribe 8%nat quiet] new_bus).1 in
  let tok := {| weakBus := Some 0%nat; eventType := 7%nat; handlerId := 1 |} in
  ∃ b', (Subscription_unsubscribe {[ 0%nat := b ]} tok).1 !! 0%nat = Some b' ∧
        subscribers b' !! 8%nat = Some [{| id := 3; callback := quiet |}] ∧
        {| id := 2; callback := throwing |} ∈ bucket b' 7%nat.
Proof.
  intros b tok.
  destruct (release_frame {[ 0%nat := b ]} tok 0%nat b
              (lookup_singleton_eq 0%nat b))
    as (b' & Hb' & _ & Hother & Hstay).
  exists b'. split; [exact Hb'|]. split.
  - rewrite Hother; [reflexivity|]. right. discriminate.
  - apply Hstay; [|discriminate]. right. left.
Defined.

(** * The calls of one publish, entry by entry *)






Lemma run_ops_ids_unique ops :
  Z.of_nat (subscribe_count ops) < SIZE_MOD →
  registry_ids_unique (run_ops ops new_bus).1.
Proof.
  intros Hn.
  assert (HM : 1 < SIZE_MOD) by (unfold SIZE_MOD, SIZE_BITS; lia).
  destruct (ids_below_run_ops ops new_bus 1) as [_ Hun].
  - simpl. symmetry. apply Z.mod_small. lia.
  - lia.
  - lia.
  - apply ids_below_new.
  - done.
Qed.





(** * The counter at its wrap *)

Lemma run_ops_churn T cb n :
  ∀ k rest,
    0 ≤ k < SIZE_MOD →
    run_ops (churn T cb k n ++ rest) {| subscribers := ∅; nextId := k |} =
      ((run_ops rest {| subscribers := ∅;
                        nextId := (k + Z.of_nat n) mod SIZE_MOD |}).1,
       map (λ i, (k + Z.of_nat i) mod SIZE_MOD) (seq 0 n) ++
       (run_ops rest {| subscribers := ∅;
                        nextId := (k + Z.of_nat n) mod SIZE_MOD |}).2).
Proof.
  pose proof SIZE_MOD_pos as HM.
  induction n as [|n IH]; intros k rest Hk.
  - cbn [churn seq map app]. rewrite Z.add_0_r, Z.mod_small by done.
    by destruct (run_ops rest _).
  - assert (Hround :
      EventBus_unsubscribe T k
        (EventBus_subscribe T cb {| subscribers := ∅; nextId := k |}).1 =
      {| subscribers := ∅; nextId := (k + 1) mod SIZE_MOD |}).
    { apply (subscribe_unsubscribe T cb {| subscribers := ∅; nextId := k |}).
      - intros T' lst E. cbn [subscribers] in E. by rewrite lookup_empty in E.
      - intros wrp Hin. by apply elem_of_nil in Hin. }
    cbn [churn app]. rewrite run_ops_subscribe. cbn [run_ops].
    rewrite !Hround, IH by (by apply Z.mod_pos_bound).
    cbn [fst snd nextId]. rewrite Zplus_mod_idemp_l.
    replace (k + 1 + Z.of_nat n) with (k + Z.of_nat (S n)) by lia.
    f_equal. cbn [seq map]. rewrite Z.add_0_r, (Z.mod_small k) by done.
    cbn [app]. f_equal. f_equal.
    rewrite <- seq_shift, map_map. apply map_ext. intros i.
    rewrite Zplus_mod_idemp_l. f_equal. lia.
Qed.

(** C4. The failing run. A client takes a token for type 7 and releases it
    again, 2^64 - 1 times over, on a new bus; this leaves the registry
    empty and [nextId] at 0. The next subscribe is given the id 0, the
    sentinel, and the one after it the id 1, which the first subscribe of
    the run was given: the ids are neither increasing nor unique, although
    only two wrappers are registered. *)
Theorem handler_id_wraps :
  let rounds := Z.to_nat (SIZE_MOD - 1) in
  let ops := churn 7%nat quiet 1 rounds ++
             [OpSubscribe 7%nat quiet; OpSubscribe 7%nat quiet] in
  let res := run_ops ops new_bus in
  res.1 = {| subscribers :=
               {[ 7%nat := [{| id := 0; callback := quiet |};
                            {| id := 1; callback := quiet |}] ]};
             nextId := 2 |} ∧
  res.2 !! 0%nat = Some 1 ∧
  res.2 !! rounds = Some 0 ∧
  res.2 !! S rounds = Some 1 ∧
  0 ∈ res.2 ∧ ¬ NoDup res.2 ∧ ¬ StronglySorted Z.lt res.2.
Proof.
  intros rounds ops res.
  assert (HM : 1 < SIZE_MOD) by (unfold SIZE_MOD, SIZE_BITS; lia).
  assert (Hrounds : (0 < rounds)%nat).
  { subst rounds. unfold SIZE_MOD, SIZE_BITS. lia. }
  assert (Hzero : (1 + Z.of_nat rounds) mod SIZE_MOD = 0).
  { subst rounds. replace (1 + Z.of_nat (Z.to_nat (SIZE_MOD - 1)))
      with SIZE_MOD by lia. apply Z_mod_same_full. }
  assert (Hres : res =
            ({| subscribers :=
                  {[ 7%nat := [{| id := 0; callback := quiet |};
                               {| id := 1; callback := quiet |}] ]};
                nextId := 2 |},
             map (λ i, (1 + Z.of_nat i) mod SIZE_MOD) (seq 0 rounds) ++ [0; 1])).
  { subst res ops. unfold new_bus. rewrite run_ops_churn by lia.
    rewrite Hzero. reflexivity. }
  assert (Hlen : length (map (λ i, (1 + Z.of_nat i) mod SIZE_MOD)
                           (seq 0 rounds)) = rounds)
    by (by rewrite length_map, length_seq).
  assert (H0 : res.2 !! 0%nat = Some 1).
  { rewrite Hres. cbn [snd]. rewrite lookup_app_l by (rewrite Hlen; exact Hrounds).
    rewrite list_lookup_fmap, lookup_seq_lt by exact Hrounds.
    reflexivity. }
  assert (Hsentinel : res.2 !! rounds = Some 0).
  { rewrite Hres. cbn [snd]. rewrite lookup_app_r by (rewrite Hlen; lia).
    rewrite Hlen, Nat.sub_diag. reflexivity. }
  assert (Hagain : res.2 !! S rounds = Some 1).
  { rewrite Hres. cbn [snd]. rewrite lookup_app_r by (rewrite Hlen; lia).
    rewrite Hlen. replace (S rounds - rounds)%nat with 1%nat by lia.
    reflexivity. }
  assert (Hdup : ¬ NoDup res.2).
  { intros Hnd. rewrite NoDup_alt in Hnd.
    pose proof (Hnd _ _ _ H0 Hagain). lia. }
  split; [by rewrite Hres|]. split; [exact H0|].
  split; [exact Hsentinel|]. split; [exact Hagain|].
  split; [|split; [exact Hdup|]].
  - eapply list_elem_of_lookup_2. exact Hsentinel.
  - intros Hs. apply Hdup, sorted_lt_NoDup, Hs.
Qed.

(** * Publish and the other types *)

(** X4. A publish of T takes its calls from the bucket of T alone. A
    subscribe or an unsubscribe for another type U leaves that bucket, the
    snapshot a publish of T takes, as it was. Every call that a publish of
    T makes itself is the call, with the published event, of a wrapper of
    the bucket of T; and where no handler id is in the registry twice, no
    wrapper registered for U is called by it. (A listener of U can still
    run while the call lasts, when a listener of T publishes U: that is a
    call of the nested publish.) *)
Theorem publish_calls_own_type_only
  (call : Callback → Value → World → Outcome * World)
  (b : EventBus) (T U : type_index) (cb : Callback) (hid : HandlerId)
  (v : Value) (w : World) :
  U ≠ T →
  registry_ids_unique b →
  let res := EventBus_publish call b T v w in
  bucket (EventBus_subscribe U cb b).1 T = bucket b T ∧
  bucket (EventBus_unsubscribe U hid b) T = bucket b T ∧
  (∀ x, x ∈ invocations res → wrapper x ∈ bucket b T ∧ argument x = v) ∧
  (∀ wrp, wrp ∈ bucket b U →
          times_invoked (id wrp) (invocations res) = 0%nat ∧
          ∀ x, x ∈ invocations res → wrapper x ≠ wrp).
Proof.
  intros Hne [_ Hcross] res.
  assert (Hfrom : ∀ x, x ∈ invocations res →
            wrapper x ∈ bucket b T ∧ argument x = v).
  { intros x Hx. subst res. rewrite publish_deliver in Hx.
    destruct (deliver_prefix call v (bucket b T) w) as (k & _ & Hd & _).
    rewrite Hd in Hx. apply invoke_all_elem in Hx as [Hx ->].
    split; [|done]. apply elem_of_take in Hx as (i & Hi & _).
    by eapply list_elem_of_lookup_2. }
  split; [by rewrite bucket_subscribe, decide_False|].
  split; [by rewrite bucket_unsubscribe, decide_False|].
  split; [done|]. intros wrp HU. split.
  - apply not_invoked_when_absent. intros wrp' HT Hid.
    apply Hne. symmetry. by apply (Hcross T U wrp' wrp).
  - intros x Hx Heq. apply Hfrom in Hx as [HT _]. rewrite Heq in HT.
    apply Hne. by apply (Hcross U T wrp wrp).
Qed.

Lemma publish_calls_own_type_only_witness :
  let b := (run_ops [OpSubscribe 7%nat publishing_other;
                     OpSubscribe 8%nat throwing] new_bus).1 in
  let w := {| heap := {[ 0%nat := b ]}; tokens := ∅ |} in
  let res := EventBus_publish (run_callback 2) b 7%nat 42 w in
  outcome res = Threw ∧
  times_invoked 2 (invocations res) = 0%nat ∧
  bucket (EventBus_subscribe 8%nat quiet b).1 7%nat =
    [{| id := 1; callback := publishing_other |}].
Proof.
  intros b w res. split; [reflexivity|].
  destruct (publish_calls_own_type_only (run_callback 2) b 7%nat 8%nat
              quiet 0 42 w ltac:(discriminate)) as (Hsub & _ & _ & Hother).
  - apply (run_ops_ids_unique [OpSubscribe 7%nat publishing_other;
                               OpSubscribe 8%nat throwing]).
    reflexivity.
  - split; [|exact Hsub].
    apply (Hother {| id := 2; callback := throwing |}). left.
Defined.
